(** * grotto: the batch dispatcher of [src/grotto/client.py]

    A shallow embedding of [_dispatch_method] and of the part of
    [GrottoClient.__init__] that fixes the dispatch configuration, followed
    by the properties of the wrapped batch operation.

    Python values are a small inductive type, exceptions are records carrying
    their class name, and the effects of a call (invocations of the wrapped
    method, progress ticks, entering the worker pool) are collected in a
    trace next to the outcome. *)

From stdpp Require Import base option list gmap strings.
From stdpp Require Import sorting.
From Stdlib Require Import ZArith Lia.

Open Scope string_scope.
Open Scope list_scope.

(** ** Python values *)

(** The values that travel through the dispatcher: the items of [array], the
    per-item results and the records found inside them. *)
#[warnings="-register-all"] Inductive pyval : Type :=
  | VNone
  | VInt (z : Z)
  | VStr (s : string)
  | VList (xs : list pyval)
  | VTuple (xs : list pyval).

Definition pyval_eq_dec : ∀ a b : pyval, {a = b} + {a ≠ b}.
Proof.
  fix IH 1. intros a b.
  decide equality;
    solve [ apply Z.eq_dec | apply String.string_dec
          | apply (Stdlib.Lists.List.list_eq_dec IH) ].
Defined.

#[global] Instance pyval_eq_decision : EqDecision pyval := pyval_eq_dec.
#[global] Instance pyval_inhabited : Inhabited pyval := populate VNone.

(** Exceptions keep the name of their class and their message. *)
Record pyexn : Type := PyExn { exn_class : string; exn_msg : string }.

#[global] Instance pyexn_eq_decision : EqDecision pyexn.
Proof. solve_decision. Defined.

Definition TypeError (msg : string) : pyexn := PyExn "TypeError" msg.
Definition ValueError (msg : string) : pyexn := PyExn "ValueError" msg.

(** A Python call either returns or raises. *)
Inductive result (A : Type) : Type :=
  | Ok (a : A)
  | Raise (e : pyexn).
Arguments Ok {A} a.
Arguments Raise {A} e.

(** [hash(v)]: lists are unhashable, a tuple is hashable when its elements
    are. *)
Fixpoint hashable (v : pyval) : bool :=
  match v with
  | VNone | VInt _ | VStr _ => true
  | VList _ => false
  | VTuple xs => forallb hashable xs
  end.

(** [iter(v)]: what [for x in v] walks through. *)
Definition py_iter (v : pyval) : result (list pyval) :=
  match v with
  | VList xs | VTuple xs => Ok xs
  | VStr s => Ok ((λ c, VStr (String c EmptyString)) <$> String.list_ascii_of_string s)
  | VInt _ => Raise (TypeError "'int' object is not iterable")
  | VNone => Raise (TypeError "'NoneType' object is not iterable")
  end.

(** A [dict] keeps its keys in insertion order; storing under a key that is
    already present replaces the value and keeps the key where it was. *)
Definition pydict : Type := list (pyval * pyval).

Fixpoint dict_setitem (d : pydict) (k v : pyval) : pydict :=
  match d with
  | [] => [(k, v)]
  | (k', v') :: d' =>
      if decide (k' = k) then (k', v) :: d' else (k', v') :: dict_setitem d' k v
  end.

Fixpoint dict_getitem (d : pydict) (k : pyval) : option pyval :=
  match d with
  | [] => None
  | (k', v') :: d' => if decide (k' = k) then Some v' else dict_getitem d' k
  end.

Definition dict_keys (d : pydict) : list pyval := d.*1.

(** ** Effects *)

Definition kwargs : Type := list (string * pyval).

Inductive event : Type :=
  | EvCall (item : pyval)                      (* method(self, item, **kwargs) *)
  | EvTick                                     (* the progress bar advances by one *)
  | EvParallel (n_jobs : option Z) (n_tasks : nat). (* joblib.Parallel(n_jobs)(tasks) *)

#[global] Instance event_eq_decision : EqDecision event.
Proof. solve_decision. Defined.

(** A computation: the events it emitted, in order, and how it ended. *)
Definition M (A : Type) : Type := list event * result A.

#[global] Instance M_ret : MRet M := λ A a, ([], Ok a).
#[global] Instance M_bind : MBind M := λ A B k m,
  match m with
  | (tr, Ok a) => let '(tr', r) := k a in (tr ++ tr', r)
  | (tr, Raise e) => (tr, Raise e)
  end.

Definition raise {A} (e : pyexn) : M A := ([], Raise e).
Definition emit (ev : event) : M unit := ([ev], Ok tt).
Definition lift {A} (r : result A) : M A := ([], r).

Definition trace {A} (m : M A) : list event := m.1.
Definition outcome {A} (m : M A) : result A := m.2.

(** ** The client's dispatch configuration *)

(** [verbose] is a flag or a level: the constructor's default is [False] and
    the dispatcher tests [self.verbose == 0]. *)
Inductive verbosity : Type :=
  | VerbBool (b : bool)
  | VerbInt (z : Z).

(** [v == 0] for a flag or a level ([False == 0] holds in Python). *)
Definition verbose_eq_0 (v : verbosity) : bool :=
  match v with
  | VerbBool b => negb b
  | VerbInt z => bool_decide (z = 0%Z)
  end.

(** The two attributes of a [GrottoClient] the dispatcher reads. [n_jobs] is
    [None] or an integer. *)
Record GrottoClient : Type := MkClient {
  n_jobs : option Z;
  verbose : verbosity
}.

(** The keyword arguments [__init__] looks at: absent ([None] here) or
    supplied. *)
Record init_kwargs : Type := InitKw {
  kw_n_jobs : option (option Z);
  kw_verbose : option verbosity
}.

(** [GrottoClient.__init__], lines 102-110. *)
Definition GrottoClient_init (kw : init_kwargs) : GrottoClient :=
  {| n_jobs := match kw_n_jobs kw with
               | Some v => v
               | None => None
               end;
     verbose := match kw_verbose kw with
                | Some v => v
                | None => VerbBool false
                end |}.

(** [self.n_jobs == 1] *)
Definition n_jobs_eq_1 (self : GrottoClient) : bool :=
  bool_decide (n_jobs self = Some 1%Z).

(** ** What the wrapper returns *)

(** One row of the data frame: [{"object": item, "data": x}]. *)
Record row : Type := Row { object : pyval; data : pyval }.

#[global] Instance row_eq_decision : EqDecision row.
Proof. solve_decision. Defined.

Inductive retval : Type :=
  | RList (data_by_object : list pyval)
  | RDict (d : pydict)
  | RDataFrame (rows : list row)
  | RNone.

#[global] Instance retval_eq_decision : EqDecision retval.
Proof. solve_decision. Defined.

(** [{item: data for item, data in zip(array, data_by_object)}]: every key is
    hashed when it is stored. *)
Fixpoint dict_comprehension (pairs : list (pyval * pyval)) (d : pydict)
  : result pydict :=
  match pairs with
  | [] => Ok d
  | (item, v) :: rest =>
      if hashable item then dict_comprehension rest (dict_setitem d item v)
      else Raise (TypeError "unhashable type: 'list'")
  end.

(** Lines 90-93: the two nested loops that fill [new_data]. *)
Fixpoint explode (pairs : list (pyval * pyval)) (new_data : list row)
  : result (list row) :=
  match pairs with
  | [] => Ok new_data
  | (item, v) :: rest =>
      match py_iter v with
      | Ok xs => explode rest (new_data ++ (Row item <$> xs))
      | Raise e => Raise e
      end
  end.

(** Lines 85-95, with the fall-through of the conditional made explicit. *)
Definition assemble (output_format : string) (array data_by_object : list pyval)
  : M retval :=
  if decide (output_format = "list") then
    mret (RList data_by_object)
  else if decide (output_format = "dict") then
    lift (match dict_comprehension (zip array data_by_object) [] with
          | Ok d => Ok (RDict d)
          | Raise e => Raise e
          end)
  else if decide (output_format = "dataframe") then
    lift (match explode (zip array data_by_object) [] with
          | Ok new_data => Ok (RDataFrame new_data)
          | Raise e => Raise e
          end)
  else
    mret RNone.

(** ** The dispatcher *)

Section Dispatch.

(** The wrapped single-item method: [method(self, item, **kwargs)]. *)
Variable method : GrottoClient → pyval → kwargs → result pyval.

(** [returns self kw item v]: the wrapped method returns [v] on [item]. *)
Definition returns (self : GrottoClient) (kw : kwargs) (item v : pyval) : Prop :=
  method self item kw = Ok v.

Definition call (self : GrottoClient) (item : pyval) (kw : kwargs) : M pyval :=
  emit (EvCall item) ≫= λ _, lift (method self item kw).

(** One unit of progress; a disabled bar stays silent. *)
Definition tick (disable : bool) : M unit :=
  if disable then mret tt else emit EvTick.

(** Lines 74-76. [tqdm] hands out the items one by one and advances when the
    loop comes back for the next one, so an item whose call raised is not
    counted. *)
Fixpoint sequential (disable : bool) (self : GrottoClient)
    (array : list pyval) (kw : kwargs) (data_by_object : list pyval)
  : M (list pyval) :=
  match array with
  | [] => mret data_by_object
  | item :: rest =>
      v ← call self item kw;
      _ ← tick disable;
      sequential disable self rest kw (data_by_object ++ [v])
  end.

(** [joblib.delayed(method)(self, item, **kwargs)]: the call, not yet made. *)
Record task : Type := Task {
  task_self : GrottoClient;
  task_item : pyval;
  task_kwargs : kwargs
}.

(** Line 78: one task per item of [array]. *)
Definition tasks_of (self : GrottoClient) (kw : kwargs) (array : list pyval)
  : list task :=
  (λ item, Task self item kw) <$> array.

Definition run_task (t : task) : M pyval :=
  call (task_self t) (task_item t) (task_kwargs t).

(** Modelled from the spec: the worker pool [joblib.Parallel] is an external
    library, absent from the sources. Following section 4.1, step 3 and
    section 5, tasks complete in any order and each result is stored under
    the position of its task. The order is chosen by [choices]: at every
    step the head of [choices], taken modulo the number of tasks still
    pending, picks the task that completes next; [tqdm_joblib] advances the
    bar on each completion (joblib reports completions batch by batch; the
    count per task agrees with it on the total of a run in which every task
    returns). The first failure ends the batch. [n_pending] always equals
    the length of [pending]. *)
Fixpoint pool_run (disable : bool) (n_pending : nat) (choices : list nat)
    (pending : list (nat * task)) (slots : gmap nat pyval)
  : M (gmap nat pyval) :=
  match n_pending with
  | O => mret slots
  | S n_pending' =>
      match pending !! (hd 0 choices `mod` length pending) with
      | None => mret slots
      | Some (i, t) =>
          v ← run_task t;
          _ ← tick disable;
          pool_run disable n_pending' (tl choices)
            (delete (hd 0 choices `mod` length pending) pending)
            (<[i := v]> slots)
      end
  end.

(** Modelled from the spec: the worker counts for which the spec describes a
    pool that reports progress, [worker_count > 1] (section 3 and section
    4.1, step 3). *)
Definition pool_reports (njobs : option Z) : bool :=
  match njobs with
  | Some w => bool_decide (1 < w)%Z
  | None => false
  end.

(** Modelled from the spec: [joblib.Parallel(n_jobs=n_jobs)(tasks)] under
    [tqdm_joblib(total=n_tasks, disable=disable)]. The results come back in
    the order of [tasks] (section 3, invariant), whatever order the tasks
    completed in. joblib rejects [n_jobs == 0] before running anything. The
    bar is advanced on completions only for a pool of more than one worker:
    with [n_jobs] unset joblib runs the tasks itself and reports nothing to
    the bar, and for the other values the spec describes no progress, so
    the bar is left alone there. *)
Definition Parallel (njobs : option Z) (disable : bool) (choices : list nat)
    (tasks : list task) : M (list pyval) :=
  _ ← emit (EvParallel njobs (length tasks));
  if decide (njobs = Some 0%Z) then
    raise (ValueError "n_jobs == 0 in Parallel has no meaning")
  else
    slots ← pool_run (disable || negb (pool_reports njobs)) (length tasks)
              choices (zip (seq 0 (length tasks)) tasks) ∅;
    mret ((λ i, slots !!! i) <$> seq 0 (length tasks)).

(** Lines 73-83: the per-item phase, sequential when [self.n_jobs == 1] and
    handed to the pool otherwise. [choices] resolves the order of
    completion inside the pool; the sequential branch does not look at
    it. *)
Definition execute (self : GrottoClient) (choices : list nat)
    (array : list pyval) (kw : kwargs) : M (list pyval) :=
  if n_jobs_eq_1 self then
    sequential (verbose_eq_0 (verbose self)) self array kw []
  else
    let tasks := tasks_of self kw array in
    Parallel (n_jobs self) (verbose_eq_0 (verbose self)) choices tasks.

(** [_dispatch_method(method, output_format).wrapper(self, array, **kwargs)],
    lines 72-95. *)
Definition wrapper (output_format : string) (self : GrottoClient)
    (choices : list nat) (array : list pyval) (kw : kwargs) : M retval :=
  data_by_object ← execute self choices array kw;
  assemble output_format array data_by_object.

End Dispatch.

(** ** Reading a trace *)

(** The items the wrapped method was invoked on, in order of invocation. *)
Fixpoint calls (tr : list event) : list pyval :=
  match tr with
  | [] => []
  | EvCall item :: tr' => item :: calls tr'
  | _ :: tr' => calls tr'
  end.

(** How far the progress bar advanced. *)
Fixpoint ticks (tr : list event) : nat :=
  match tr with
  | [] => 0
  | EvTick :: tr' => S (ticks tr')
  | _ :: tr' => ticks tr'
  end.

(** Whether the worker pool was entered. *)
Fixpoint entered_pool (tr : list event) : bool :=
  match tr with
  | [] => false
  | EvParallel _ _ :: _ => true
  | _ :: tr' => entered_pool tr'
  end.

(** The trace of a sequential loop that runs to its end over [array]. *)
Definition loop_trace (disable : bool) (array : list pyval) : list event :=
  item ← array; EvCall item :: (if disable then [] else [EvTick]).

(** [iterable v]: a [for] loop can walk through [v]. *)
Definition iterable (v : pyval) : Prop := ∃ xs, py_iter v = Ok xs.

(** The same client with another worker count. *)
Definition with_n_jobs (self : GrottoClient) (n : option Z) : GrottoClient :=
  {| n_jobs := n; verbose := verbose self |}.

(** The rows one item contributes to the data frame. *)
Definition rows_of (item : pyval) (records : list pyval) : list row :=
  Row item <$> records.

(** ** Sample operations, used to run the dispatcher on concrete batches *)

(** Every integer item yields the list of its double and its triple; the
    item [3] is rejected; anything else is sent back as it came. *)
Definition sample_method (self : GrottoClient) (item : pyval) (kw : kwargs)
  : result pyval :=
  match item with
  | VInt 3 => Raise (PyExn "KeyError" "3")
  | VInt z => Ok (VList [VInt (2 * z); VInt (3 * z)])
  | _ => Ok item
  end.

(** An operation whose result is a bare number. *)
Definition scalar_method (self : GrottoClient) (item : pyval) (kw : kwargs)
  : result pyval :=
  match item with
  | VInt z => Ok (VInt (z + 1))
  | _ => Ok VNone
  end.

(** The operation of the data-frame example: [a] has the records 1 and 2,
    [b] has the record 3. *)
Definition lookup_method (self : GrottoClient) (item : pyval) (kw : kwargs)
  : result pyval :=
  match item with
  | VStr "a" => Ok (VList [VInt 1; VInt 2])
  | VStr "b" => Ok (VList [VInt 3])
  | _ => Raise (PyExn "KeyError" "unknown object")
  end.

Definition sequential_client : GrottoClient := MkClient (Some 1%Z) (VerbBool true).
Definition pooled_client : GrottoClient := MkClient (Some 4%Z) (VerbBool true).
Definition quiet_client : GrottoClient := MkClient (Some 4%Z) (VerbBool false).

(** ** Comparing tasks *)

Section TaskRelation.

Variable method : GrottoClient → pyval → kwargs → result pyval.

(** Two pending tasks that stand at the same position, for the same item,
    and on which the method does the same. *)
Definition same_task (p p' : nat * task) : Prop :=
  p.1 = p'.1
  ∧ task_item p.2 = task_item p'.2
  ∧ method (task_self p.2) (task_item p.2) (task_kwargs p.2)
    = method (task_self p'.2) (task_item p'.2) (task_kwargs p'.2).

End TaskRelation.

(** ** Objects and the promotion of methods *)

(** What a name is bound to on an object: something that can be called (the
    implementation is identified by its qualified name; [has_annotations]
    tells whether it carries [__annotations__]), a plain value, or a
    property without setter whose value is plain (a property whose value
    can be called is listed among the methods and never assigned to: it
    counts as a callable). *)
Inductive attr : Type :=
  | Callable (impl : string) (has_annotations : bool)
  | Plain (v : pyval)
  | Property (v : pyval).

#[global] Instance attr_eq_decision : EqDecision attr.
Proof. solve_decision. Defined.

(** An object is the finite map of its attributes, one flat name space. *)
Abbreviation pyobj := (gmap string attr).

Definition name_le (a b : string) : Prop := String.leb a b = true.

#[global] Instance name_le_decision : RelDecision name_le.
Proof. intros a b. unfold name_le. apply _. Defined.

(** [dir(obj)]: the attribute names, in alphabetical order. *)
Definition dir (obj : pyobj) : list string :=
  merge_sort name_le (map_to_list obj).*1.

(** [callable(getattr(obj, name))] *)
Definition callable (a : option attr) : bool :=
  match a with
  | Some (Callable _ _) => true
  | _ => false
  end.

(** [hasattr(method, "__annotations__")] *)
Definition hasattr_annotations (a : attr) : bool :=
  match a with
  | Callable _ b => b
  | Plain _ | Property _ => false
  end.

(** [setattr(target, name, value)]: a property without setter refuses the
    assignment. *)
Definition setattr (target : pyobj) (name : string) (value : attr)
  : result pyobj :=
  match target !! name with
  | Some (Property _) => Raise (PyExn "AttributeError" "can't set attribute")
  | _ => Ok (<[name := value]> target)
  end.

(** [name.startswith("_")] *)
Definition startswith_underscore (name : string) : bool := String.prefix "_" name.

(** [_get_object_methods(obj, exclude_private)], lines 12-22. *)
Definition _get_object_methods (obj : pyobj) (exclude_private : bool)
  : list string :=
  let object_methods :=
    filter (λ method_name, callable (obj !! method_name) = true) (dir obj) in
  if exclude_private then
    filter (λ method_name, startswith_underscore method_name = false)
      object_methods
  else object_methods.

(** The loop of [_promote_methods], lines 26-32. The methods of [target] are
    listed afresh at every turn; [getattr(obj, method_name)] raises
    [AttributeError] on a name [obj] does not have, and so does either
    [setattr] on a property of [target] that has no setter. *)
Fixpoint promote_loop (obj : pyobj) (names : list string) (target : pyobj)
  : result pyobj :=
  match names with
  | [] => Ok target
  | method_name :: rest =>
      if bool_decide (method_name ∈ _get_object_methods target false) then
        promote_loop obj rest target
      else
        match obj !! method_name with
        | None => Raise (PyExn "AttributeError" method_name)
        | Some method =>
            match setattr target method_name method with
            | Raise e => Raise e
            | Ok target1 =>
                if hasattr_annotations method then
                  match setattr target1 method_name method with
                  | Raise e => Raise e
                  | Ok target2 => promote_loop obj rest target2
                  end
                else promote_loop obj rest target1
            end
        end
  end.

(** [_promote_methods(obj, target)], lines 25-32; the result is [target]
    after the call. *)
Definition _promote_methods (obj target : pyobj) : result pyobj :=
  promote_loop obj (_get_object_methods obj true) target.

(** The sub-clients [__init__] promotes, lines 125-131. *)
Record subclients : Type := SubClients {
  annotation : pyobj;
  chunkedgraph : pyobj;
  l2cache : pyobj;
  materialize : pyobj;
  schema : pyobj;
  state : pyobj
}.

(** Promotions one after the other, each on the result of the one before. *)
Fixpoint promote_each (objs : list pyobj) (target : pyobj) : result pyobj :=
  match objs with
  | [] => Ok target
  | obj :: rest =>
      match _promote_methods obj target with
      | Ok target' => promote_each rest target'
      | Raise e => Raise e
      end
  end.

(** Lines 125-131 of [GrottoClient.__init__]: what becomes of the name space
    of [self]. *)
Definition GrottoClient_promote (subs : subclients) (self : pyobj)
  : result pyobj :=
  promote_each [annotation subs; chunkedgraph subs; l2cache subs;
                materialize subs; schema subs; state subs] self.

(** [public_method obj name]: [name] is one of the methods [obj] offers for
    promotion. *)
Definition public_method (obj : pyobj) (name : string) : bool :=
  callable (obj !! name) && negb (startswith_underscore name).

(** ** Tables and [query_table] *)

(** A table: its index and its columns, each a label with its values. Labels
    may repeat. *)
Record table : Type := MkTable {
  tbl_index : list pyval;
  tbl_columns : list (string * list pyval)
}.

(** [out.columns] *)
Definition columns (out : table) : list string := (tbl_columns out).*1.

(** [out.rename(columns=col_rename, inplace=True)]: a label found in the
    mapping is replaced, the others stay. *)
Definition rename (col_rename : gmap string string) (out : table) : table :=
  {| tbl_index := tbl_index out;
     tbl_columns :=
       (λ c, (default c.1 (col_rename !! c.1), c.2)) <$> tbl_columns out |}.

(** Lines 172-175: the mapping built from the position columns present. *)
Definition position_renames (out : table) : gmap string string :=
  foldl (λ col_rename dim,
           if bool_decide (("pt_position_" +:+ dim) ∈ columns out)
           then <["pt_position_" +:+ dim := dim]> col_rename
           else col_rename)
        ∅ ["x"; "y"; "z"].

(** The label a column has after [query_table]. *)
Definition short_label (label : string) : string :=
  if decide (label = "pt_position_x") then "x"
  else if decide (label = "pt_position_y") then "y"
  else if decide (label = "pt_position_z") then "z"
  else label.

Section QueryTable.

(** The values of arguments, with the two that [query_table] passes itself:
    [True] and [[1.0, 1.0, 1.0]]. *)
Context {arg : Type}.
Variable py_True : arg.
Variable unit_resolution : arg.

(** [self.materialize.query_table], applied to the positional and the
    keyword arguments. *)
Variable materialize_query_table : list arg → gmap string arg → result table.

(** [GrottoClient.query_table], lines 168-177. *)
Definition query_table (args : list arg) (kw : gmap string arg) : result table :=
  let kw1 := <["split_positions" := py_True]> kw in
  let kw2 := <["desired_resolution" := unit_resolution]> kw1 in
  match materialize_query_table args kw2 with
  | Ok out => Ok (rename (position_renames out) out)
  | Raise e => Raise e
  end.

End QueryTable.

(** ** Sample objects and tables *)

(** A sub-client with two public methods, a private one and a plain
    attribute. *)
Definition sample_subclient : pyobj :=
  list_to_map [("query_table", Callable "materialize.query_table" true);
               ("get_tables", Callable "materialize.get_tables" false);
               ("_request", Callable "materialize._request" true);
               ("version", Plain (VInt 3))].

(** A client with its own [query_table] and a plain attribute named like a
    method of the sub-client. *)
Definition sample_self : pyobj :=
  list_to_map [("query_table", Callable "GrottoClient.query_table" true);
               ("get_tables", Plain VNone);
               ("n_jobs", Plain VNone)].

(** The client after the promotion of the sub-client. *)
Definition sample_promoted : pyobj :=
  list_to_map [("query_table", Callable "GrottoClient.query_table" true);
               ("get_tables", Callable "materialize.get_tables" false);
               ("n_jobs", Plain VNone)].

(** A sub-client that offers [get_tables] as well, promoted before the
    other. *)
Definition sample_annotation : pyobj :=
  list_to_map [("get_annotation", Callable "annotation.get_annotation" true);
               ("get_tables", Callable "annotation.get_tables" true)].

Definition sample_subclients : subclients :=
  {| annotation := sample_annotation;
     chunkedgraph := ∅;
     l2cache := ∅;
     materialize := sample_subclient;
     schema := ∅;
     state := ∅ |}.

(** A client with its own [query_table] and the property [materialize]. *)
Definition sample_client : pyobj :=
  list_to_map [("query_table", Callable "GrottoClient.query_table" true);
               ("materialize", Property VNone)].

(** The client after the promotions of [__init__]. *)
Definition sample_client_promoted : pyobj :=
  list_to_map [("query_table", Callable "GrottoClient.query_table" true);
               ("materialize", Property VNone);
               ("get_annotation", Callable "annotation.get_annotation" true);
               ("get_tables", Callable "annotation.get_tables" true)].

(** A client on which [get_tables] is a property without setter. *)
Definition sample_locked : pyobj :=
  list_to_map [("get_tables", Property (VInt 0))].

Definition sample_table : table :=
  MkTable [VInt 0; VInt 1]
    [("id", [VInt 11; VInt 12]);
     ("pt_position_x", [VInt 5; VInt 6]);
     ("pt_position_z", [VInt 7; VInt 8]);
     ("x", [VInt 0; VInt 0])].

(** A materialization client that answers only when positions are split. *)
Definition sample_query (args : list pyval) (kw : gmap string pyval)
  : result table :=
  match kw !! "split_positions" with
  | Some (VInt 1) => Ok sample_table
  | _ => Raise (PyExn "ValueError" "positions are not split")
  end.

(** * Properties *)

Lemma calls_app tr1 tr2 : calls (tr1 ++ tr2) = calls tr1 ++ calls tr2.
Proof.
  induction tr1 as [|ev tr1 IH]; [done|].
  destruct ev; simpl; by rewrite IH.
Qed.

Lemma ticks_app tr1 tr2 : ticks (tr1 ++ tr2) = ticks tr1 + ticks tr2.
Proof.
  induction tr1 as [|ev tr1 IH]; [done|].
  destruct ev; simpl; by rewrite IH.
Qed.

Lemma entered_pool_app tr1 tr2 :
  entered_pool (tr1 ++ tr2) = entered_pool tr1 || entered_pool tr2.
Proof.
  induction tr1 as [|ev tr1 IH]; [done|].
  destruct ev; simpl; by rewrite ?IH.
Qed.

Lemma loop_trace_cons disable item array :
  loop_trace disable (item :: array)
  = EvCall item :: (if disable then [] else [EvTick]) ++ loop_trace disable array.
Proof. done. Qed.

Lemma loop_trace_app disable xs ys :
  loop_trace disable (xs ++ ys) = loop_trace disable xs ++ loop_trace disable ys.
Proof. unfold loop_trace. by rewrite bind_app. Qed.

Lemma calls_loop_trace disable array : calls (loop_trace disable array) = array.
Proof.
  induction array as [|item array IH]; [done|].
  rewrite loop_trace_cons. simpl. rewrite calls_app, IH.
  by destruct disable.
Qed.

Lemma ticks_loop_trace disable array :
  ticks (loop_trace disable array) = if disable then 0 else length array.
Proof.
  induction array as [|item array IH]; [by destruct disable|].
  rewrite loop_trace_cons. simpl. rewrite ticks_app, IH.
  by destruct disable.
Qed.

Lemma entered_pool_loop_trace disable array :
  entered_pool (loop_trace disable array) = false.
Proof.
  induction array as [|item array IH]; [done|].
  rewrite loop_trace_cons. simpl. rewrite entered_pool_app, IH.
  by destruct disable.
Qed.

(** ** Assembling the result *)

Lemma dict_getitem_setitem d k v k' :
  dict_getitem (dict_setitem d k v) k'
  = if decide (k = k') then Some v else dict_getitem d k'.
Proof.
  induction d as [|[k0 v0] d IH]; simpl.
  - done.
  - destruct (decide (k0 = k)) as [->|Hne]; simpl.
    + by repeat case_decide.
    + rewrite IH. repeat case_decide; congruence.
Qed.

Lemma dict_keys_setitem d k v :
  dict_keys (dict_setitem d k v)
  = if decide (k ∈ dict_keys d) then dict_keys d else dict_keys d ++ [k].
Proof.
  unfold dict_keys. induction d as [|[k0 v0] d IH].
  - rewrite decide_False; [done|]. apply not_elem_of_nil.
  - cbn [dict_setitem]. destruct (decide (k0 = k)) as [->|Hne].
    + rewrite !fmap_cons. cbn [fst]. rewrite decide_True; [done|]. left.
    + rewrite !fmap_cons, IH. cbn [fst].
      repeat case_decide; try done.
      * exfalso. eauto using list_elem_of_further.
      * exfalso. match goal with H : k ∈ _ :: _ |- _ =>
                   apply elem_of_cons in H as [?|?] end; congruence.
Qed.

(** The comprehension over hashable keys, every key [k] paired with [g k]:
    it returns, its keys are the old keys and the new ones without
    repetition, and every new key maps to its value. *)
Lemma dict_comprehension_hashable (g : pyval → pyval) pairs :
  ∀ d,
  Forall (λ p, hashable p.1 = true ∧ p.2 = g p.1) pairs →
  NoDup (dict_keys d) →
  ∃ d', dict_comprehension pairs d = Ok d'
        ∧ NoDup (dict_keys d')
        ∧ (∀ k, k ∈ dict_keys d' ↔ k ∈ dict_keys d ∨ k ∈ pairs.*1)
        ∧ (∀ k, dict_getitem d' k
                = if decide (k ∈ pairs.*1) then Some (g k) else dict_getitem d k).
Proof.
  induction pairs as [|[item v] pairs IH]; intros d Hall Hnd.
  - exists d. split_and!; [done|done| |done].
    intros k. rewrite fmap_nil, elem_of_nil. tauto.
  - apply Forall_cons in Hall as [[Hh Hv] Hall]. simpl in Hh, Hv. subst v.
    assert (Hmem : ∀ k, k ∈ ((item, g item) :: pairs).*1 ↔ k = item ∨ k ∈ pairs.*1).
    { intros k. by rewrite fmap_cons, elem_of_cons. }
    cbn [dict_comprehension]. rewrite Hh.
    destruct (IH (dict_setitem d item (g item)) Hall)
      as (d' & Hrun & Hnd' & Hkeys & Hget).
    { rewrite dict_keys_setitem. case_decide; [done|].
      apply NoDup_app. split_and!; [done| |apply NoDup_singleton].
      intros k Hk Hk'. apply list_elem_of_singleton in Hk' as ->. done. }
    exists d'. split_and!; [done|done| |].
    + intros k. rewrite Hkeys, dict_keys_setitem, Hmem.
      case_decide; [|rewrite elem_of_app, list_elem_of_singleton];
        intuition (subst; auto).
    + intros k. rewrite Hget, dict_getitem_setitem.
      destruct (Hmem k) as [Hmem1 Hmem2].
      repeat case_decide; subst; try done; exfalso; auto.
      destruct Hmem1 as [?|?]; auto.
Qed.

Lemma py_iter_raises v e : py_iter v = Raise e → exn_class e = "TypeError".
Proof. destruct v; simpl; intros [= <-]; done. Qed.

(** When every result can be walked through, the rows come out block by
    block, in the order of the pairs. *)
Lemma explode_iterable pairs recss :
  ∀ new_data,
  Forall2 (λ p recs, py_iter p.2 = Ok recs) pairs recss →
  explode pairs new_data
  = Ok (new_data ++ mjoin (zip_with rows_of pairs.*1 recss)).
Proof.
  intros new_data Hall. revert new_data.
  induction Hall as [|[item v] recs pairs recss Hv _ IH]; intros new_data.
  - simpl. by rewrite app_nil_r.
  - simpl in *. rewrite Hv, IH. by rewrite <- app_assoc.
Qed.

(** One result that cannot be walked through makes the loops raise. *)
Lemma explode_not_iterable pairs :
  ∀ new_data,
  Exists (λ p, ¬ iterable p.2) pairs →
  ∃ e, explode pairs new_data = Raise e ∧ exn_class e = "TypeError".
Proof.
  induction pairs as [|[item v] pairs IH]; intros new_data Hex.
  - by apply Exists_nil in Hex.
  - simpl. destruct (py_iter v) as [xs|e] eqn:Hv.
    + apply IH. apply Exists_cons in Hex as [Hbad|Hex]; [|done].
      exfalso. apply Hbad. by exists xs.
    + exists e. split; [done|]. by apply py_iter_raises in Hv.
Qed.

Lemma trace_assemble output_format array data_by_object :
  trace (assemble output_format array data_by_object) = [].
Proof. unfold assemble. by repeat case_decide. Qed.

Section DispatchFacts.

Variable method : GrottoClient → pyval → kwargs → result pyval.

Lemma call_returns self kw item v :
  returns method self kw item v →
  call method self item kw = ([EvCall item], Ok v).
Proof. unfold returns, call. intros Hv. simpl. unfold lift. by rewrite Hv. Qed.

Lemma call_raises self kw item e :
  method self item kw = Raise e →
  call method self item kw = ([EvCall item], Raise e).
Proof. unfold call. intros He. simpl. unfold lift. by rewrite He. Qed.

(** Either the method returns on every item, or there is a first item on
    which it raises. *)
Lemma returns_all_or_first_failure self kw (array : list pyval) :
  (∃ vs, Forall2 (returns method self kw) array vs)
  ∨ (∃ pre item post vs e,
        array = pre ++ item :: post
        ∧ Forall2 (returns method self kw) pre vs
        ∧ method self item kw = Raise e).
Proof.
  induction array as [|item array IH].
  - left. by exists [].
  - destruct (method self item kw) as [v|e] eqn:Hm.
    + destruct IH as [[vs Hvs]|(pre & it & post & vs & e & -> & Hpre & He)].
      * left. exists (v :: vs). by constructor.
      * right. exists (item :: pre), it, post, (v :: vs), e.
        split_and!; [done| by constructor |done].
    + right. by exists [], item, array, [], e.
Qed.

(** *** The sequential loop *)

Lemma sequential_cons disable self kw item rest acc :
  sequential method disable self (item :: rest) kw acc
  = (call method self item kw ≫= λ v,
     tick disable ≫= λ _,
     sequential method disable self rest kw (acc ++ [v])).
Proof. done. Qed.

Lemma sequential_returns disable self kw array vs acc :
  Forall2 (returns method self kw) array vs →
  sequential method disable self array kw acc
  = (loop_trace disable array, Ok (acc ++ vs)).
Proof.
  intros Hall. revert acc.
  induction Hall as [|item v array vs Hv _ IH]; intros acc.
  - simpl. by rewrite app_nil_r.
  - rewrite sequential_cons, (call_returns _ _ _ _ Hv), loop_trace_cons.
    simpl. rewrite IH, <- app_assoc.
    by destruct disable.
Qed.

Lemma sequential_raises disable self kw pre item post vs e acc :
  Forall2 (returns method self kw) pre vs →
  method self item kw = Raise e →
  sequential method disable self (pre ++ item :: post) kw acc
  = (loop_trace disable pre ++ [EvCall item], Raise e).
Proof.
  intros Hall He. revert acc.
  induction Hall as [|it v pre vs Hv _ IH]; intros acc.
  - rewrite app_nil_l, sequential_cons. by rewrite (call_raises _ _ _ _ He).
  - rewrite <- app_comm_cons, sequential_cons, (call_returns _ _ _ _ Hv).
    rewrite loop_trace_cons. simpl.
    rewrite IH. by destruct disable.
Qed.

(** *** The worker pool *)

Lemma run_task_returns t v :
  returns method (task_self t) (task_kwargs t) (task_item t) v →
  run_task method t = ([EvCall (task_item t)], Ok v).
Proof. apply call_returns. Qed.

Lemma run_task_raises t e :
  method (task_self t) (task_item t) (task_kwargs t) = Raise e →
  run_task method t = ([EvCall (task_item t)], Raise e).
Proof. apply call_raises. Qed.

Lemma pool_run_step disable n choices pending slots :
  pool_run method disable (S n) choices pending slots
  = match pending !! (hd 0 choices `mod` length pending) with
    | None => mret slots
    | Some (i, t) =>
        run_task method t ≫= λ v,
        tick disable ≫= λ _,
        pool_run method disable n (tl choices)
          (delete (hd 0 choices `mod` length pending) pending)
          (<[i := v]> slots)
    end.
Proof. done. Qed.

(** Whatever the choice, it designates one of the pending tasks. *)
Lemma pool_pick (pending : list (nat * task)) n c :
  length pending = S n →
  ∃ i t, pending !! (c `mod` length pending) = Some (i, t)
         ∧ pending ≡ₚ (i, t) :: delete (c `mod` length pending) pending
         ∧ length (delete (c `mod` length pending) pending) = n.
Proof.
  intros Hlen.
  destruct (lookup_lt_is_Some_2 pending (c `mod` length pending))
    as [[i t] Hit].
  { apply Nat.mod_upper_bound. lia. }
  exists i, t. split; [done|].
  pose proof (delete_Permutation _ _ _ Hit) as Hperm.
  split; [done|].
  apply Permutation_length in Hperm. simpl in Hperm. lia.
Qed.

(** When every pending task returns, the pool fills exactly the slots of
    the pending tasks, each with the value of its own task, in whatever
    order the tasks complete. *)
Lemma pool_run_returns (f : nat → pyval) disable n :
  ∀ choices (pending : list (nat * task)) (slots : gmap nat pyval),
  length pending = n →
  (∀ i t, (i, t) ∈ pending →
          returns method (task_self t) (task_kwargs t) (task_item t) (f i)) →
  ∃ tr slots',
    pool_run method disable n choices pending slots = (tr, Ok slots')
    ∧ (∀ j, slots' !! j
            = if decide (j ∈ pending.*1) then Some (f j) else slots !! j)
    ∧ calls tr ≡ₚ task_item <$> pending.*2
    ∧ ticks tr = (if disable then 0 else n)
    ∧ entered_pool tr = false.
Proof.
  induction n as [|n IH]; intros choices pending slots Hlen Hall.
  - apply nil_length_inv in Hlen as ->.
    exists [], slots. split_and!; try done.
    by destruct disable.
  - destruct (pool_pick pending n (hd 0 choices) Hlen)
      as (i & t & Hit & Hperm & Hlen').
    assert (Hv : returns method (task_self t) (task_kwargs t) (task_item t) (f i)).
    { apply Hall. rewrite Hperm. left. }
    destruct (IH (tl choices) (delete (hd 0 choices `mod` length pending) pending)
                (<[i := f i]> slots) Hlen')
      as (tr & slots' & Hrun & Hslots & Hcalls & Hticks & Hpool).
    { intros i' t' Hin. apply Hall. rewrite Hperm. by right. }
    exists (EvCall (task_item t) :: (if disable then [] else [EvTick]) ++ tr), slots'.
    split_and!.
    + rewrite pool_run_step, Hit, (run_task_returns _ _ Hv). simpl.
      rewrite Hrun. by destruct disable.
    + intros j. rewrite Hslots.
      assert (Hmem : j ∈ pending.*1 ↔ j = i ∨ j ∈ (delete (hd 0 choices `mod` length pending) pending).*1).
      { rewrite Hperm at 1. rewrite fmap_cons, elem_of_cons. done. }
      repeat case_decide; try done.
      * tauto.
      * destruct (decide (j = i)) as [->|Hne].
        -- by rewrite lookup_insert_eq.
        -- tauto.
      * rewrite lookup_insert_ne; [done|]. intros ->. tauto.
    + simpl. rewrite calls_app. rewrite Hperm at 1. simpl.
      constructor. by destruct disable.
    + simpl. rewrite ticks_app, Hticks. by destruct disable.
    + simpl. rewrite entered_pool_app, Hpool. by destruct disable.
Qed.

(** Every order of completion is one the pool can take: whatever order the
    pending tasks are listed in, some sequence of choices completes them in
    that order. *)
Lemma pool_run_any_order disable (order : list (nat * task)) :
  ∀ (pending : list (nat * task)) (slots : gmap nat pyval),
  order ≡ₚ pending →
  (∀ i t, (i, t) ∈ pending →
          ∃ v, returns method (task_self t) (task_kwargs t) (task_item t) v) →
  ∃ choices,
    calls (trace (pool_run method disable (length pending) choices pending slots))
    = task_item <$> order.*2.
Proof.
  induction order as [|[i t] order IH]; intros pending slots Hperm Hall.
  - apply Permutation_nil_l in Hperm. subst pending. by exists [].
  - assert (Hin : (i, t) ∈ pending) by (rewrite <- Hperm; left).
    destruct (Hall i t Hin) as [v Hv].
    apply list_elem_of_lookup in Hin as [k Hk].
    pose proof (lookup_lt_Some _ _ _ Hk) as Hlt.
    pose proof (delete_Permutation _ _ _ Hk) as Hdel.
    assert (Hrest : order ≡ₚ delete k pending).
    { apply Permutation_cons_inv with (i, t). by rewrite Hperm. }
    assert (Hall' : ∀ i' t', (i', t') ∈ delete k pending →
              ∃ v', returns method (task_self t') (task_kwargs t') (task_item t') v').
    { intros i' t' Hin'. apply (Hall i' t'). rewrite Hdel. by right. }
    destruct (IH (delete k pending) (<[i := v]> slots) Hrest Hall')
      as [choices Hcalls].
    exists (k :: choices).
    destruct (length pending) as [|n] eqn:Hlen; [lia|].
    assert (Hlen' : length (delete k pending) = n).
    { apply Permutation_length in Hdel. simpl in Hdel. lia. }
    rewrite Hlen' in Hcalls.
    rewrite pool_run_step. simpl hd. simpl tl.
    rewrite Hlen, Nat.mod_small, Hk, (run_task_returns _ _ Hv) by done.
    simpl.
    destruct (pool_run method disable n choices (delete k pending) (<[i:=v]> slots))
      as [tr r].
    simpl in *. destruct disable; simpl; by rewrite Hcalls.
Qed.

(** When some pending task raises, so does the pool. *)
Lemma pool_run_raises disable n :
  ∀ choices (pending : list (nat * task)) (slots : gmap nat pyval),
  length pending = n →
  (∃ i t e, (i, t) ∈ pending
            ∧ method (task_self t) (task_item t) (task_kwargs t) = Raise e) →
  ∃ tr e, pool_run method disable n choices pending slots = (tr, Raise e).
Proof.
  induction n as [|n IH]; intros choices pending slots Hlen (i0 & t0 & e0 & Hin & He).
  - apply nil_length_inv in Hlen as ->. by apply elem_of_nil in Hin.
  - destruct (pool_pick pending n (hd 0 choices) Hlen)
      as (i & t & Hit & Hperm & Hlen').
    rewrite pool_run_step, Hit.
    destruct (method (task_self t) (task_item t) (task_kwargs t)) as [v|e] eqn:Hm.
    + rewrite (run_task_returns _ _ Hm).
      destruct (IH (tl choices) (delete (hd 0 choices `mod` length pending) pending)
                  (<[i := v]> slots) Hlen') as (tr & e & Hrun).
      { exists i0, t0, e0. split; [|done].
        rewrite Hperm in Hin. apply elem_of_cons in Hin as [Heq|Hin]; [|done].
        injection Heq as -> ->. congruence. }
      simpl. rewrite Hrun. destruct disable; simpl; eauto.
    + rewrite (run_task_raises _ _ Hm). simpl. eauto.
Qed.

Lemma task_item_tasks_of self kw array :
  task_item <$> tasks_of self kw array = array.
Proof.
  induction array as [|item array IH]; [done|].
  unfold tasks_of in *. rewrite !fmap_cons, IH. done.
Qed.

Lemma elem_of_numbered_tasks self kw array i t :
  (i, t) ∈ zip (seq 0 (length (tasks_of self kw array))) (tasks_of self kw array) →
  ∃ item, array !! i = Some item ∧ t = Task self item kw.
Proof.
  intros Hin. apply list_elem_of_lookup in Hin as [k Hk].
  apply lookup_zip_with_Some in Hk as (i' & t' & [= <- <-] & Hi & Ht).
  apply lookup_seq in Hi as [-> _]. simpl in *.
  unfold tasks_of in Ht. rewrite list_lookup_fmap in Ht.
  destruct (array !! k) as [item|]; [|done]. injection Ht as <-. eauto.
Qed.

Lemma Parallel_returns njobs disable choices self kw array vs :
  njobs ≠ Some 0%Z →
  Forall2 (returns method self kw) array vs →
  ∃ tr,
    Parallel method njobs disable choices (tasks_of self kw array)
    = (EvParallel njobs (length array) :: tr, Ok vs)
    ∧ calls tr ≡ₚ array
    ∧ ticks tr = (if disable || negb (pool_reports njobs)
                  then 0 else length array)
    ∧ entered_pool tr = false.
Proof.
  intros Hn Hall.
  assert (Hlen : length (tasks_of self kw array) = length array).
  { unfold tasks_of. by rewrite length_fmap. }
  pose proof (Forall2_length _ _ _ Hall) as Hlenv.
  destruct (pool_run_returns (λ i, vs !!! i)
              (disable || negb (pool_reports njobs))
              (length (tasks_of self kw array)) choices
              (zip (seq 0 (length (tasks_of self kw array))) (tasks_of self kw array))
              ∅)
    as (tr & slots' & Hrun & Hslots & Hcalls & Hticks & Hpool).
  { rewrite length_zip, length_seq. lia. }
  { intros i t Hin.
    apply elem_of_numbered_tasks in Hin as (item & Hitem & ->). simpl.
    destruct (Forall2_lookup_l _ _ _ _ _ Hall Hitem) as (v & Hv & Hret).
    by rewrite (list_lookup_total_correct _ _ _ Hv). }
  exists tr. split_and!.
  - unfold Parallel. simpl. rewrite decide_False by done.
    rewrite Hrun. simpl. rewrite app_nil_r, Hlen. do 2 f_equal.
    apply list_eq. intros j. rewrite list_lookup_fmap.
    destruct (decide (j < length array)) as [Hj|Hj].
    + rewrite lookup_seq_lt by done. simpl.
      rewrite lookup_total_alt, Hslots, fst_zip
        by (rewrite length_seq; lia).
      rewrite decide_True by (apply elem_of_seq; lia). simpl.
      symmetry. apply list_lookup_lookup_total_lt. lia.
    + rewrite lookup_seq_ge by lia. simpl.
      symmetry. apply lookup_ge_None. lia.
  - rewrite Hcalls, snd_zip by (rewrite length_seq; lia).
    by rewrite task_item_tasks_of.
  - by rewrite Hticks, Hlen.
  - done.
Qed.

Lemma Parallel_raises njobs disable choices self kw pre item post e :
  method self item kw = Raise e →
  ∃ tr e',
    Parallel method njobs disable choices (tasks_of self kw (pre ++ item :: post))
    = (tr, Raise e').
Proof.
  intros He. unfold Parallel. simpl.
  case_decide; [by eauto|].
  destruct (pool_run_raises (disable || negb (pool_reports njobs))
              (length (tasks_of self kw (pre ++ item :: post))) choices
              (zip (seq 0 (length (tasks_of self kw (pre ++ item :: post))))
                 (tasks_of self kw (pre ++ item :: post)))
              ∅)
    as (tr & e' & Hrun).
  { rewrite length_zip, length_seq. lia. }
  { exists (length pre), (Task self item kw), e. split; [|done].
    apply list_elem_of_lookup. exists (length pre).
    apply lookup_zip_with_Some. exists (length pre), (Task self item kw).
    split_and!; [done| |].
    - apply lookup_seq. unfold tasks_of.
      rewrite length_fmap, length_app. simpl. lia.
    - unfold tasks_of. rewrite list_lookup_fmap.
      by rewrite list_lookup_middle. }
  rewrite Hrun. simpl. eauto.
Qed.

(** *** The per-item phase as a whole *)

Lemma returns_on_each self kw (array : list pyval) :
  (∀ item, item ∈ array → ∃ v, returns method self kw item v) →
  ∃ vs, Forall2 (returns method self kw) array vs.
Proof.
  induction array as [|item array IH]; intros Hall.
  - by exists [].
  - destruct (Hall item) as [v Hv]; [left|].
    destruct IH as [vs Hvs]; [intros it Hit; apply Hall; by right|].
    exists (v :: vs). by constructor.
Qed.

Lemma execute_returns self choices kw array vs :
  n_jobs self ≠ Some 0%Z →
  Forall2 (returns method self kw) array vs →
  ∃ tr, execute method self choices array kw = (tr, Ok vs)
        ∧ calls tr ≡ₚ array
        ∧ ticks tr = (if verbose_eq_0 (verbose self)
                         || negb (n_jobs_eq_1 self || pool_reports (n_jobs self))
                      then 0 else length array)
        ∧ entered_pool tr = negb (n_jobs_eq_1 self).
Proof.
  intros Hn Hall. unfold execute.
  destruct (n_jobs_eq_1 self).
  - exists (loop_trace (verbose_eq_0 (verbose self)) array).
    rewrite (sequential_returns _ _ _ _ _ _ Hall).
    rewrite calls_loop_trace, ticks_loop_trace, entered_pool_loop_trace.
    simpl. by rewrite orb_false_r.
  - destruct (Parallel_returns (n_jobs self) (verbose_eq_0 (verbose self))
                choices self kw array vs Hn Hall)
      as (tr & Hrun & Hcalls & Hticks & Hpool).
    exists (EvParallel (n_jobs self) (length array) :: tr).
    simpl. by rewrite Hrun.
Qed.

Lemma execute_raises self choices kw pre item post vs e :
  Forall2 (returns method self kw) pre vs →
  method self item kw = Raise e →
  ∃ tr e', execute method self choices (pre ++ item :: post) kw = (tr, Raise e').
Proof.
  intros Hpre He. unfold execute.
  destruct (n_jobs_eq_1 self).
  - rewrite (sequential_raises _ _ _ _ _ _ _ _ _ Hpre He). eauto.
  - simpl. by apply (Parallel_raises _ _ _ _ _ _ _ _ e).
Qed.

(** The per-item phase hands over data only when the method returned on
    every item, and then it hands over the results in the order of the
    items. *)
Lemma execute_Ok_inv self choices kw array tr data_by_object :
  execute method self choices array kw = (tr, Ok data_by_object) →
  n_jobs self ≠ Some 0%Z ∧ Forall2 (returns method self kw) array data_by_object.
Proof.
  intros Hrun.
  assert (Hn : n_jobs self ≠ Some 0%Z).
  { intros Hz. unfold execute, n_jobs_eq_1 in Hrun.
    rewrite Hz, bool_decide_eq_false_2 in Hrun by done.
    unfold Parallel in Hrun. simpl in Hrun. done. }
  split; [done|].
  destruct (returns_all_or_first_failure self kw array)
    as [[vs Hvs]|(pre & item & post & vs & e & -> & Hpre & He)].
  - destruct (execute_returns self choices kw array vs Hn Hvs) as (tr' & Hrun' & _).
    rewrite Hrun in Hrun'. by injection Hrun' as _ ->.
  - destruct (execute_raises self choices kw pre item post vs e Hpre He)
      as (tr' & e' & Hrun').
    rewrite Hrun in Hrun'. done.
Qed.

Lemma entered_pool_execute self choices kw array :
  entered_pool (trace (execute method self choices array kw))
  = negb (n_jobs_eq_1 self).
Proof.
  unfold execute. destruct (n_jobs_eq_1 self); simpl.
  - destruct (returns_all_or_first_failure self kw array)
      as [[vs Hvs]|(pre & item & post & vs & e & -> & Hpre & He)].
    + rewrite (sequential_returns _ _ _ _ _ _ Hvs).
      apply entered_pool_loop_trace.
    + rewrite (sequential_raises _ _ _ _ _ _ _ _ _ Hpre He). simpl.
      rewrite entered_pool_app, entered_pool_loop_trace. done.
  - unfold Parallel. simpl.
    destruct (decide (n_jobs self = Some 0%Z)); [done|].
    by destruct (_ ≫= _).
Qed.

(** *** The wrapper: the per-item phase, then the assembly *)

Lemma wrapper_returns output_format self choices kw array tr vs :
  execute method self choices array kw = (tr, Ok vs) →
  wrapper method output_format self choices array kw
  = (tr, outcome (assemble output_format array vs)).
Proof.
  intros Hrun. unfold wrapper. rewrite Hrun. simpl.
  pose proof (trace_assemble output_format array vs) as Htr.
  destruct (assemble output_format array vs) as [tr' r]. simpl in *.
  by rewrite Htr, app_nil_r.
Qed.

Lemma wrapper_raises output_format self choices kw array tr e :
  execute method self choices array kw = (tr, Raise e) →
  wrapper method output_format self choices array kw = (tr, Raise e).
Proof. intros Hrun. unfold wrapper. by rewrite Hrun. Qed.

Lemma trace_wrapper output_format self choices kw array :
  trace (wrapper method output_format self choices array kw)
  = trace (execute method self choices array kw).
Proof.
  destruct (execute method self choices array kw) as [tr [vs|e]] eqn:Hrun.
  - by rewrite (wrapper_returns _ _ _ _ _ _ _ Hrun).
  - by rewrite (wrapper_raises _ _ _ _ _ _ _ Hrun).
Qed.

End DispatchFacts.

(** ** Lists of items against lists of results *)

Section Pairing.

Context {A B C : Type}.

Lemma Forall2_zip_snd (R : A → B → Prop) (Q : B → C → Prop) xs ys zs :
  Forall2 R xs ys → Forall2 Q ys zs →
  Forall2 (λ p z, Q p.2 z) (zip xs ys) zs.
Proof.
  intros Hxy. revert zs.
  induction Hxy as [|x y xs ys _ _ IH]; intros zs Hyz.
  - apply Forall2_nil_inv_l in Hyz as ->. constructor.
  - apply Forall2_cons_inv_l in Hyz as (z & zs' & Hz & Hzs & ->).
    constructor; [done|]. by apply IH.
Qed.

Lemma Exists_zip_snd (R : A → B → Prop) (P : B → Prop) xs ys :
  Forall2 R xs ys → Exists P ys → Exists (λ p, P p.2) (zip xs ys).
Proof.
  induction 1 as [|x y xs ys _ _ IH]; intros Hex.
  - by apply Exists_nil in Hex.
  - apply Exists_cons in Hex as [Hy|Hex].
    + by left.
    + right. by apply IH.
Qed.

Lemma Forall_zip_both (R : A → B → Prop) (P : A → Prop) xs ys :
  Forall2 R xs ys → Forall P xs →
  Forall (λ p, P p.1 ∧ R p.1 p.2) (zip xs ys).
Proof.
  induction 1 as [|x y xs ys Hxy _ IH]; intros Hall.
  - constructor.
  - apply Forall_cons in Hall as [Hx Hall]. constructor; [done|]. by apply IH.
Qed.

End Pairing.

(** A list without repetition, all of whose elements occur in a list with a
    repetition, is strictly shorter. *)
Lemma NoDup_shorter (keys array : list pyval) :
  NoDup keys → (∀ k, k ∈ keys → k ∈ array) → ¬ NoDup array →
  length keys < length array.
Proof.
  intros Hnd Hsub Hdup.
  pose proof (NoDup_submseteq _ _ Hnd Hsub) as Hle.
  pose proof (submseteq_length _ _ Hle) as Hlen.
  destruct (decide (length array ≤ length keys)%nat) as [Hge|]; [|lia].
  exfalso. apply Hdup.
  by rewrite <- (submseteq_length_Permutation _ _ Hle Hge).
Qed.

(** * The wrapped batch operation *)

Section Batch.

Variable method : GrottoClient → pyval → kwargs → result pyval.

(** C1. With the [list] format, for every batch on whose items the wrapped
    method returns and for every worker count (the sequential loop of
    [n_jobs == 1] as well as the pool, in whatever order its tasks
    complete), the wrapper returns a list as long as the batch whose i-th
    element is the method's result on the i-th item. *)
Theorem list_output_aligned self choices (array : list pyval) kw :
  n_jobs self ≠ Some 0%Z →
  (∀ item, item ∈ array → ∃ v, method self item kw = Ok v) →
  ∃ data_by_object : list pyval,
    outcome (wrapper method "list" self choices array kw)
    = Ok (RList data_by_object)
    ∧ length data_by_object = length array
    ∧ ∀ i item, array !! i = Some item →
        ∃ v, data_by_object !! i = Some v ∧ method self item kw = Ok v.
Proof.
  intros Hn Hall.
  destruct (returns_on_each method self kw array Hall) as [vs Hvs].
  destruct (execute_returns method self choices kw array vs Hn Hvs)
    as (tr & Hrun & _).
  exists vs. rewrite (wrapper_returns _ _ _ _ _ _ _ _ Hrun). split_and!.
  - done.
  - symmetry. by eapply Forall2_length.
  - intros i item Hi.
    destruct (Forall2_lookup_l _ _ _ _ _ Hvs Hi) as (v & Hv & Hret). eauto.
Qed.

(** C2, as the code has it. With the [dict] format, for every batch of
    hashable items that contains a duplicate and on whose items the wrapped
    method returns, the wrapper raises nothing: it returns a mapping with
    one entry per distinct item, each item mapped to the method's result
    on it, hence with fewer entries than the batch has items. *)
Theorem dict_output_merges_duplicates self choices (array vs : list pyval) kw :
  n_jobs self ≠ Some 0%Z →
  Forall (λ item, hashable item = true) array →
  Forall2 (returns method self kw) array vs →
  ¬ NoDup array →
  ∃ d : pydict,
    outcome (wrapper method "dict" self choices array kw) = Ok (RDict d)
    ∧ NoDup (dict_keys d)
    ∧ (∀ k, k ∈ dict_keys d ↔ k ∈ array)
    ∧ (∀ item, item ∈ array →
         ∃ v, dict_getitem d item = Some v ∧ method self item kw = Ok v)
    ∧ length d < length array.
Proof.
  intros Hn Hhash Hvs Hdup.
  destruct (execute_returns method self choices kw array vs Hn Hvs)
    as (tr & Hrun & _).
  pose (g := λ k, match method self k kw with Ok v => v | Raise _ => VNone end).
  destruct (dict_comprehension_hashable g (zip array vs) [])
    as (d & Hd & Hnd & Hkeys & Hget).
  { eapply Forall_impl; [apply (Forall_zip_both _ _ _ _ Hvs Hhash)|].
    intros [k v] [Hk Hret]. simpl in *. split; [done|].
    unfold g. by rewrite Hret. }
  { constructor. }
  assert (Hfst : (zip array vs).*1 = array).
  { apply fst_zip. by rewrite (Forall2_length _ _ _ Hvs). }
  rewrite Hfst in Hkeys, Hget.
  assert (Hkeys' : ∀ k, k ∈ dict_keys d ↔ k ∈ array).
  { intros k. rewrite Hkeys. split; [intros [Hk|Hk]|by right]; [|done].
    by apply elem_of_nil in Hk. }
  exists d. rewrite (wrapper_returns _ _ _ _ _ _ _ _ Hrun). split_and!.
  - unfold assemble. simpl. by rewrite Hd.
  - done.
  - done.
  - intros item Hin. rewrite Hget, decide_True by done.
    exists (g item). split; [done|].
    apply list_elem_of_lookup in Hin as [i Hi].
    destruct (Forall2_lookup_l _ _ _ _ _ Hvs Hi) as (v & _ & Hret).
    unfold g. by rewrite Hret.
  - replace (length d) with (length (dict_keys d))
      by (unfold dict_keys; apply length_fmap).
    apply NoDup_shorter; [done| |done]. intros k. by rewrite Hkeys'.
Qed.

(** C3. With the [dataframe] format, when the method returns on every item
    and every result can be walked through, the wrapper returns the rows
    (item, record) block by block: the records of the first item in their
    own order, then those of the second, and so on, for every worker count
    and every order of completion. *)
Theorem dataframe_block_order self choices (array vs : list pyval)
    (records : list (list pyval)) kw :
  n_jobs self ≠ Some 0%Z →
  Forall2 (returns method self kw) array vs →
  Forall2 (λ v recs, py_iter v = Ok recs) vs records →
  outcome (wrapper method "dataframe" self choices array kw)
  = Ok (RDataFrame (mjoin (zip_with rows_of array records))).
Proof.
  intros Hn Hvs Hrecs.
  destruct (execute_returns method self choices kw array vs Hn Hvs)
    as (tr & Hrun & _).
  rewrite (wrapper_returns _ _ _ _ _ _ _ _ Hrun).
  unfold assemble. simpl.
  rewrite (explode_iterable (zip array vs) records)
    by (by apply (Forall2_zip_snd (returns method self kw)
                    (λ v recs, py_iter v = Ok recs))).
  rewrite fst_zip by (by rewrite (Forall2_length _ _ _ Hvs)).
  done.
Qed.

(** C4, as the code has it. With the [dataframe] format, when the method
    returns on every item and one of the results cannot be walked through,
    the wrapper raises Python's own [TypeError]. *)
Theorem dataframe_not_iterable_TypeError self choices (array vs : list pyval) kw :
  n_jobs self ≠ Some 0%Z →
  Forall2 (returns method self kw) array vs →
  Exists (λ v, ¬ iterable v) vs →
  ∃ e, outcome (wrapper method "dataframe" self choices array kw) = Raise e
       ∧ exn_class e = "TypeError".
Proof.
  intros Hn Hvs Hbad.
  destruct (execute_returns method self choices kw array vs Hn Hvs)
    as (tr & Hrun & _).
  rewrite (wrapper_returns _ _ _ _ _ _ _ _ Hrun).
  destruct (explode_not_iterable (zip array vs) [])
    as (e & He & Hcls).
  { by apply (Exists_zip_snd (returns method self kw) (λ v, ¬ iterable v)). }
  exists e. unfold assemble. simpl. by rewrite He.
Qed.

(** C5. On the empty batch the wrapper returns the empty list, the empty
    mapping or the empty table, according to the format, and raises
    nothing, for every worker count. *)
Theorem empty_batch self choices kw :
  n_jobs self ≠ Some 0%Z →
  outcome (wrapper method "list" self choices [] kw) = Ok (RList [])
  ∧ outcome (wrapper method "dict" self choices [] kw) = Ok (RDict [])
  ∧ outcome (wrapper method "dataframe" self choices [] kw) = Ok (RDataFrame []).
Proof.
  intros Hn.
  destruct (execute_returns method self choices kw [] [] Hn) as (tr & Hrun & _);
    [constructor|].
  by rewrite !(wrapper_returns _ _ _ _ _ _ _ _ Hrun).
Qed.

(** C6, as the code has it. In sequential mode, when the method returns on
    the items before the k-th and raises on the k-th, the wrapper has
    invoked the method on the first k items, in order, and on no other; it
    then raises the method's own error, unchanged, and returns nothing. *)
Theorem sequential_fail_fast output_format self choices
    (pre : list pyval) item (post vs : list pyval) e kw :
  n_jobs self = Some 1%Z →
  Forall2 (returns method self kw) pre vs →
  method self item kw = Raise e →
  outcome (wrapper method output_format self choices (pre ++ item :: post) kw)
  = Raise e
  ∧ calls (trace (wrapper method output_format self choices
                    (pre ++ item :: post) kw))
    = pre ++ [item].
Proof.
  intros Hn Hpre He.
  assert (Hrun : execute method self choices (pre ++ item :: post) kw
                 = (loop_trace (verbose_eq_0 (verbose self)) pre ++ [EvCall item],
                    Raise e)).
  { unfold execute, n_jobs_eq_1. rewrite bool_decide_eq_true_2 by done.
    by apply sequential_raises with vs. }
  rewrite (wrapper_raises _ _ _ _ _ _ _ _ Hrun). split; [done|].
  simpl. by rewrite calls_app, calls_loop_trace.
Qed.

(** C7. For a worker count of one (the sequential loop) or more (the pool):
    whenever the wrapper returns, the progress bar has advanced by exactly
    the number of items if progress is enabled ([verbose] differs from 0)
    and not at all if it is disabled. *)
Theorem progress_ticks output_format self w choices (array : list pyval) kw r :
  n_jobs self = Some w →
  (1 ≤ w)%Z →
  outcome (wrapper method output_format self choices array kw) = Ok r →
  ticks (trace (wrapper method output_format self choices array kw))
  = if verbose_eq_0 (verbose self) then 0 else length array.
Proof.
  intros Hw Hpos Hok.
  assert (Hmode : n_jobs_eq_1 self || pool_reports (n_jobs self) = true).
  { unfold n_jobs_eq_1. rewrite Hw. simpl.
    destruct (decide (w = 1%Z)) as [->|Hne].
    - by rewrite bool_decide_eq_true_2.
    - apply orb_true_iff. right. apply bool_decide_eq_true_2. lia. }
  destruct (execute method self choices array kw) as [tr [vs|e]] eqn:Hrun.
  - destruct (execute_Ok_inv method _ _ _ _ _ _ Hrun) as [Hn Hvs].
    destruct (execute_returns method self choices kw array vs Hn Hvs)
      as (tr' & Hrun' & _ & Hticks & _).
    rewrite trace_wrapper, Hrun'. simpl.
    by rewrite Hticks, Hmode, orb_false_r.
  - by rewrite (wrapper_raises _ _ _ _ _ _ _ _ Hrun) in Hok.
Qed.

(** C8. For a method that is a function of the item and the options alone,
    the wrapper run with more than one worker returns exactly what the
    wrapper run with one worker returns, for each output format and every
    order of completion in the pool. *)
Theorem pool_matches_sequential output_format self w choices choices'
    (array : list pyval) kw r :
  (1 < w)%Z →
  (∀ c c' item, method c item kw = method c' item kw) →
  outcome (wrapper method output_format (with_n_jobs self (Some w))
             choices array kw) = Ok r
  ↔ outcome (wrapper method output_format (with_n_jobs self (Some 1%Z))
               choices' array kw) = Ok r.
Proof.
  intros Hw Hpure.
  set (pool := with_n_jobs self (Some w)).
  set (sq := with_n_jobs self (Some 1%Z)).
  assert (Hnp : n_jobs pool ≠ Some 0%Z) by (simpl; intros [=]; lia).
  assert (Hns : n_jobs sq ≠ Some 0%Z) by (simpl; intros [=]).
  destruct (returns_all_or_first_failure method sq kw array)
    as [[vs Hvs]|(pre & item & post & vs & e & -> & Hpre & He)].
  - assert (Hvp : Forall2 (returns method pool kw) array vs).
    { eapply Forall2_impl; [done|]. intros item v. unfold returns.
      by rewrite (Hpure pool sq). }
    destruct (execute_returns method sq choices' kw array vs Hns Hvs)
      as (trs & Hruns & _).
    destruct (execute_returns method pool choices kw array vs Hnp Hvp)
      as (trp & Hrunp & _).
    by rewrite (wrapper_returns _ _ _ _ _ _ _ _ Hruns),
               (wrapper_returns _ _ _ _ _ _ _ _ Hrunp).
  - assert (Hprep : Forall2 (returns method pool kw) pre vs).
    { eapply Forall2_impl; [done|]. intros it v. unfold returns.
      by rewrite (Hpure pool sq). }
    assert (Hep : method pool item kw = Raise e) by (by rewrite (Hpure pool sq)).
    destruct (execute_raises method sq choices' kw pre item post vs e Hpre He)
      as (trs & es & Hruns).
    destruct (execute_raises method pool choices kw pre item post vs e Hprep Hep)
      as (trp & ep & Hrunp).
    by rewrite (wrapper_raises _ _ _ _ _ _ _ _ Hruns),
               (wrapper_raises _ _ _ _ _ _ _ _ Hrunp).
Qed.

(** With a format other than [list], [dict] and [dataframe] the wrapper never
    returns an aggregate, whatever the per-item phase does. *)
Lemma unknown_format_no_aggregate output_format self choices
    (array : list pyval) kw r :
  output_format ≠ "list" → output_format ≠ "dict" →
  output_format ≠ "dataframe" →
  outcome (wrapper method output_format self choices array kw) = Ok r →
  r = RNone.
Proof.
  intros Hl Hd Hf.
  destruct (execute method self choices array kw) as [tr [vs|e]] eqn:Hrun.
  - rewrite (wrapper_returns _ _ _ _ _ _ _ _ Hrun).
    unfold assemble. rewrite !decide_False by done. simpl. congruence.
  - by rewrite (wrapper_raises _ _ _ _ _ _ _ _ Hrun).
Qed.

(** C9. With a format other than [list], [dict] and [dataframe], the
    assembly falls through the conditional: for every batch on whose items
    the method returns, the wrapper returns [None]; it neither raises nor
    returns an aggregate. *)
Theorem unknown_format_returns_None output_format self choices
    (array : list pyval) kw :
  output_format ≠ "list" → output_format ≠ "dict" →
  output_format ≠ "dataframe" →
  n_jobs self ≠ Some 0%Z →
  (∀ item, item ∈ array → ∃ v, method self item kw = Ok v) →
  outcome (wrapper method output_format self choices array kw) = Ok RNone.
Proof.
  intros Hl Hd Hf Hn Hall.
  destruct (returns_on_each method self kw array Hall) as [vs Hvs].
  destruct (execute_returns method self choices kw array vs Hn Hvs)
    as (tr & Hrun & _).
  rewrite (wrapper_returns _ _ _ _ _ _ _ _ Hrun).
  unfold assemble. by rewrite !decide_False.
Qed.

(** C10. The wrapper enters the worker pool exactly when [n_jobs] is not the
    integer 1; in particular a client built without the [n_jobs] keyword
    has [n_jobs = None] and goes through the pool. *)
Theorem pool_unless_n_jobs_is_1 output_format self choices
    (array : list pyval) kw :
  entered_pool (trace (wrapper method output_format self choices array kw))
  = negb (bool_decide (n_jobs self = Some 1%Z))
  ∧ ∀ v,
      n_jobs (GrottoClient_init (InitKw None v)) = None
      ∧ entered_pool
          (trace (wrapper method output_format
                    (GrottoClient_init (InitKw None v)) choices array kw))
        = true.
Proof.
  split.
  - by rewrite trace_wrapper, entered_pool_execute.
  - intros v. split; [done|].
    by rewrite trace_wrapper, entered_pool_execute.
Qed.

End Batch.

(** * The dispatcher on concrete batches *)

Ltac each_item Hin :=
  repeat (apply elem_of_cons in Hin as [->|Hin]; [by eexists|]);
  by apply elem_of_nil in Hin.

(** Three items through the pool, completing in the order 4, 1, 2. *)
Lemma list_output_aligned_witness :
  ∃ data_by_object : list pyval,
    outcome (wrapper sample_method "list" pooled_client [2; 0; 0]
               [VInt 1; VInt 2; VInt 4] [])
    = Ok (RList data_by_object)
    ∧ length data_by_object = 3
    ∧ ∀ i item, [VInt 1; VInt 2; VInt 4] !! i = Some item →
        ∃ v, data_by_object !! i = Some v
             ∧ sample_method pooled_client item [] = Ok v.
Proof.
  apply (list_output_aligned sample_method pooled_client [2; 0; 0]
           [VInt 1; VInt 2; VInt 4] []).
  - vm_compute. congruence.
  - intros item Hin. each_item Hin.
Defined.

(** The batch [1, 1] with the [dict] format: a mapping comes back. *)
Lemma dict_duplicate_counterexample :
  ¬ NoDup [VInt 1; VInt 1]
  ∧ outcome (wrapper sample_method "dict" sequential_client [] [VInt 1; VInt 1] [])
    = Ok (RDict [(VInt 1, VList [VInt 2; VInt 3])])
  ∧ ¬ ∃ e, outcome (wrapper sample_method "dict" sequential_client []
                      [VInt 1; VInt 1] []) = Raise e
           ∧ exn_class e = "DuplicateKeyError".
Proof.
  split_and!.
  - intros Hnd. apply NoDup_cons in Hnd as [Hnotin _]. apply Hnotin. left.
  - reflexivity.
  - intros (e & He & _). vm_compute in He. discriminate He.
Qed.

Lemma dict_output_merges_duplicates_witness :
  ∃ d : pydict,
    outcome (wrapper sample_method "dict" pooled_client [1; 1; 0]
               [VInt 1; VInt 2; VInt 1] [])
    = Ok (RDict d)
    ∧ NoDup (dict_keys d)
    ∧ (∀ k, k ∈ dict_keys d ↔ k ∈ [VInt 1; VInt 2; VInt 1])
    ∧ (∀ item, item ∈ [VInt 1; VInt 2; VInt 1] →
         ∃ v, dict_getitem d item = Some v
              ∧ sample_method pooled_client item [] = Ok v)
    ∧ length d < 3.
Proof.
  apply (dict_output_merges_duplicates sample_method pooled_client [1; 1; 0]
           [VInt 1; VInt 2; VInt 1]
           [VList [VInt 2; VInt 3]; VList [VInt 4; VInt 6]; VList [VInt 2; VInt 3]]
           []).
  - vm_compute. congruence.
  - repeat constructor.
  - repeat constructor.
  - intros Hnd. apply NoDup_cons in Hnd as [Hnotin _]. apply Hnotin.
    right. left.
Defined.

(** The example of the data frame: [a] and [b] with the records [[1, 2], [3]],
    the second task completing first. *)
Lemma dataframe_block_order_witness :
  outcome (wrapper lookup_method "dataframe" pooled_client [1; 0]
             [VStr "a"; VStr "b"] [])
  = Ok (RDataFrame [Row (VStr "a") (VInt 1); Row (VStr "a") (VInt 2);
                    Row (VStr "b") (VInt 3)]).
Proof.
  apply (dataframe_block_order lookup_method pooled_client [1; 0]
           [VStr "a"; VStr "b"]
           [VList [VInt 1; VInt 2]; VList [VInt 3]]
           [[VInt 1; VInt 2]; [VInt 3]] []).
  - vm_compute. congruence.
  - repeat constructor.
  - repeat constructor.
Defined.

(** A result that is a bare number: the error is a [TypeError]. *)
Lemma dataframe_not_iterable_counterexample :
  ¬ iterable (VInt 2)
  ∧ scalar_method sequential_client (VInt 1) [] = Ok (VInt 2)
  ∧ outcome (wrapper scalar_method "dataframe" sequential_client [] [VInt 1] [])
    = Raise (TypeError "'int' object is not iterable")
  ∧ ¬ ∃ e, outcome (wrapper scalar_method "dataframe" sequential_client []
                      [VInt 1] []) = Raise e
           ∧ exn_class e = "InvalidResultShapeError".
Proof.
  split_and!.
  - intros [xs Hxs]. discriminate Hxs.
  - reflexivity.
  - reflexivity.
  - intros (e & He & Hcls). vm_compute in He. injection He as <-.
    discriminate Hcls.
Qed.

Lemma dataframe_not_iterable_TypeError_witness :
  ∃ e, outcome (wrapper scalar_method "dataframe" pooled_client [0; 0]
                  [VInt 1; VInt 5] []) = Raise e
       ∧ exn_class e = "TypeError".
Proof.
  apply (dataframe_not_iterable_TypeError scalar_method pooled_client [0; 0]
           [VInt 1; VInt 5] [VInt 2; VInt 6] []).
  - vm_compute. congruence.
  - repeat constructor.
  - left. intros [xs Hxs]. discriminate Hxs.
Defined.

Lemma empty_batch_witness :
  outcome (wrapper sample_method "list" pooled_client [] [] []) = Ok (RList [])
  ∧ outcome (wrapper sample_method "dict" pooled_client [] [] []) = Ok (RDict [])
  ∧ outcome (wrapper sample_method "dataframe" pooled_client [] [] [])
    = Ok (RDataFrame []).
Proof.
  apply (empty_batch sample_method pooled_client [] []).
  vm_compute. congruence.
Defined.

(** Five items, the third rejected: the error that comes out is the
    method's [KeyError]. *)
Lemma sequential_failure_counterexample :
  sample_method sequential_client (VInt 3) [] = Raise (PyExn "KeyError" "3")
  ∧ outcome (wrapper sample_method "list" sequential_client []
               [VInt 1; VInt 2; VInt 3; VInt 4; VInt 5] [])
    = Raise (PyExn "KeyError" "3")
  ∧ ¬ ∃ e, outcome (wrapper sample_method "list" sequential_client []
                      [VInt 1; VInt 2; VInt 3; VInt 4; VInt 5] []) = Raise e
           ∧ exn_class e = "TaskFailure".
Proof.
  split_and!.
  - reflexivity.
  - reflexivity.
  - intros (e & He & Hcls). vm_compute in He. injection He as <-.
    discriminate Hcls.
Qed.

Lemma sequential_fail_fast_witness :
  outcome (wrapper sample_method "list" sequential_client []
             ([VInt 1; VInt 2] ++ VInt 3 :: [VInt 4; VInt 5]) [])
  = Raise (PyExn "KeyError" "3")
  ∧ calls (trace (wrapper sample_method "list" sequential_client []
                    ([VInt 1; VInt 2] ++ VInt 3 :: [VInt 4; VInt 5]) []))
    = [VInt 1; VInt 2] ++ [VInt 3].
Proof.
  apply (sequential_fail_fast sample_method "list" sequential_client []
           [VInt 1; VInt 2] (VInt 3) [VInt 4; VInt 5]
           [VList [VInt 2; VInt 3]; VList [VInt 4; VInt 6]]
           (PyExn "KeyError" "3") []).
  - reflexivity.
  - repeat constructor.
  - reflexivity.
Defined.

Lemma progress_ticks_witness :
  ticks (trace (wrapper sample_method "list" pooled_client [2; 0; 0]
                  [VInt 1; VInt 2; VInt 4] [])) = 3
  ∧ ticks (trace (wrapper sample_method "list" quiet_client [2; 0; 0]
                    [VInt 1; VInt 2; VInt 4] [])) = 0.
Proof.
  split.
  - apply (progress_ticks sample_method "list" pooled_client 4 [2; 0; 0]
             [VInt 1; VInt 2; VInt 4] []
             (RList [VList [VInt 2; VInt 3]; VList [VInt 4; VInt 6];
                     VList [VInt 8; VInt 12]])).
    + reflexivity.
    + lia.
    + vm_compute. reflexivity.
  - apply (progress_ticks sample_method "list" quiet_client 4 [2; 0; 0]
             [VInt 1; VInt 2; VInt 4] []
             (RList [VList [VInt 2; VInt 3]; VList [VInt 4; VInt 6];
                     VList [VInt 8; VInt 12]])).
    + reflexivity.
    + lia.
    + vm_compute. reflexivity.
Defined.

(** What the pool returns, obtained from what the sequential loop returns. *)
Lemma pool_matches_sequential_witness :
  outcome (wrapper sample_method "dataframe"
             (with_n_jobs pooled_client (Some 4%Z)) [2; 0; 0]
             [VInt 1; VInt 2; VInt 4] [])
  = Ok (RDataFrame [Row (VInt 1) (VInt 2); Row (VInt 1) (VInt 3);
                    Row (VInt 2) (VInt 4); Row (VInt 2) (VInt 6);
                    Row (VInt 4) (VInt 8); Row (VInt 4) (VInt 12)]).
Proof.
  apply (pool_matches_sequential sample_method "dataframe" pooled_client 4
           [2; 0; 0] [] [VInt 1; VInt 2; VInt 4] []).
  - lia.
  - intros c c' item. reflexivity.
  - vm_compute. reflexivity.
Defined.

Lemma unknown_format_returns_None_witness :
  outcome (wrapper sample_method "json" pooled_client [1; 0]
             [VInt 1; VInt 2] []) = Ok RNone.
Proof.
  apply (unknown_format_returns_None sample_method "json" pooled_client [1; 0]
           [VInt 1; VInt 2] []).
  - vm_compute. congruence.
  - vm_compute. congruence.
  - vm_compute. congruence.
  - vm_compute. congruence.
  - intros item Hin. each_item Hin.
Defined.

(** * Further properties of the dispatcher *)

(** ** More on the assembly *)

Lemma dict_setitem_fresh d k v :
  k ∉ dict_keys d → dict_setitem d k v = d ++ [(k, v)].
Proof.
  unfold dict_keys. induction d as [|[k0 v0] d IH]; intros Hk; [done|].
  rewrite fmap_cons, not_elem_of_cons in Hk. destruct Hk as [Hne Hk].
  cbn [dict_setitem]. rewrite decide_False by done.
  by rewrite IH.
Qed.

(** Keys that are hashable, new and distinct are appended in order. *)
Lemma dict_comprehension_fresh pairs :
  ∀ d,
  Forall (λ p, hashable p.1 = true) pairs →
  NoDup (dict_keys d ++ pairs.*1) →
  dict_comprehension pairs d = Ok (d ++ pairs).
Proof.
  induction pairs as [|[item v] pairs IH]; intros d Hall Hnd.
  - by rewrite app_nil_r.
  - apply Forall_cons in Hall as [Hh Hall]. simpl in Hh.
    rewrite fmap_cons in Hnd. cbn [fst] in Hnd.
    cbn [dict_comprehension]. rewrite Hh.
    assert (Hnew : item ∉ dict_keys d).
    { apply NoDup_app in Hnd as (_ & Hdisj & _).
      intros Hin. apply (Hdisj item Hin). left. }
    rewrite dict_setitem_fresh by done.
    rewrite IH; [by rewrite <- app_assoc|done|].
    unfold dict_keys in *. rewrite fmap_app, <- app_assoc. done.
Qed.

(** A key that cannot be hashed stops the comprehension. *)
Lemma dict_comprehension_unhashable pairs :
  ∀ d,
  Exists (λ p, hashable p.1 = false) pairs →
  dict_comprehension pairs d = Raise (TypeError "unhashable type: 'list'").
Proof.
  induction pairs as [|[item v] pairs IH]; intros d Hex.
  - by apply Exists_nil in Hex.
  - cbn [dict_comprehension]. destruct (hashable item) eqn:Hh; [|done].
    apply IH. apply Exists_cons in Hex as [Hbad|Hex]; [|done].
    simpl in Hbad. congruence.
Qed.

Lemma Exists_zip_fst {A B} (R : A → B → Prop) (P : A → Prop) xs ys :
  Forall2 R xs ys → Exists P xs → Exists (λ p, P p.1) (zip xs ys).
Proof.
  induction 1 as [|x y xs ys _ _ IH]; intros Hex.
  - by apply Exists_nil in Hex.
  - apply Exists_cons in Hex as [Hx|Hex]; [by left|right; by apply IH].
Qed.

Section BatchTrace.

Variable method : GrottoClient → pyval → kwargs → result pyval.

(** *** What any run of the per-item phase looks like *)

(** Whatever the pending tasks do, the pool calls the method on pending
    tasks only, on each at most once, stays silent when the bar is
    disabled, and raises only what one of the pending tasks raised. *)
Lemma pool_run_trace disable n :
  ∀ choices (pending : list (nat * task)) (slots : gmap nat pyval),
  length pending = n →
  calls (trace (pool_run method disable n choices pending slots))
    ⊆+ task_item <$> pending.*2
  ∧ (disable = true →
     ticks (trace (pool_run method disable n choices pending slots)) = 0)
  ∧ ∀ e, outcome (pool_run method disable n choices pending slots) = Raise e →
         ∃ i t, (i, t) ∈ pending
                ∧ method (task_self t) (task_item t) (task_kwargs t) = Raise e.
Proof.
  induction n as [|n IH]; intros choices pending slots Hlen.
  - simpl. split_and!; [apply submseteq_nil_l|done|done].
  - destruct (pool_pick pending n (hd 0 choices) Hlen)
      as (i & t & Hit & Hperm & Hlen').
    rewrite pool_run_step, Hit.
    destruct (method (task_self t) (task_item t) (task_kwargs t)) as [v|e] eqn:Hm.
    + rewrite (run_task_returns method _ _ Hm). cbn [mbind M_bind].
      specialize (IH (tl choices)
                    (delete (hd 0 choices `mod` length pending) pending)
                    (<[i := v]> slots) Hlen').
      destruct (pool_run method disable n (tl choices)
                  (delete (hd 0 choices `mod` length pending) pending)
                  (<[i := v]> slots)) as [tr r].
      destruct IH as (Hcalls & Hquiet & Hexn). simpl in *.
      assert (Hsub : task_item t :: calls tr ⊆+ task_item <$> pending.*2).
      { rewrite Hperm at 1. simpl. by apply submseteq_skip. }
      destruct disable; simpl.
      * split_and!; [done|auto|].
        intros e He. destruct (Hexn e He) as (i' & t' & Hin & Hr).
        exists i', t'. split; [|done]. rewrite Hperm. by right.
      * split_and!; [done|done|].
        intros e He. destruct (Hexn e He) as (i' & t' & Hin & Hr).
        exists i', t'. split; [|done]. rewrite Hperm. by right.
    + rewrite (run_task_raises method _ _ Hm). simpl.
      split_and!; [|done|].
      * apply singleton_submseteq_l. rewrite Hperm at 1. simpl. left.
      * intros e' [= <-]. exists i, t. split; [|done]. rewrite Hperm. left.
Qed.

(** The same for the per-item phase as a whole, sequential or pooled. *)
Lemma execute_trace self choices kw (array : list pyval) :
  calls (trace (execute method self choices array kw)) ⊆+ array
  ∧ (verbose_eq_0 (verbose self) = true →
     ticks (trace (execute method self choices array kw)) = 0).
Proof.
  unfold execute. destruct (n_jobs_eq_1 self).
  - destruct (returns_all_or_first_failure method self kw array)
      as [[vs Hvs]|(pre & item & post & vs & e & -> & Hpre & He)].
    + rewrite (sequential_returns method _ _ _ _ _ _ Hvs). simpl.
      rewrite calls_loop_trace, ticks_loop_trace.
      split; [done|by intros ->].
    + rewrite (sequential_raises method _ _ _ _ _ _ _ _ _ Hpre He). simpl.
      rewrite calls_app, ticks_app, calls_loop_trace, ticks_loop_trace.
      simpl. split.
      * apply submseteq_skips_l, singleton_submseteq_l. left.
      * by intros ->.
  - unfold Parallel. simpl.
    destruct (decide (n_jobs self = Some 0%Z)).
    + simpl. split; [apply submseteq_nil_l|done].
    + destruct (pool_run_trace
                  (verbose_eq_0 (verbose self) || negb (pool_reports (n_jobs self)))
                  (length (tasks_of self kw array)) choices
                  (zip (seq 0 (length (tasks_of self kw array)))
                     (tasks_of self kw array)) ∅)
        as (Hcalls & Hquiet & _).
      { rewrite length_zip, length_seq. lia. }
      rewrite snd_zip, task_item_tasks_of in Hcalls by (rewrite length_seq; lia).
      destruct (pool_run method _ _ _ _ _) as [tr [slots|e]]; simpl in *.
      * rewrite app_nil_r. split; [done|].
        intros Hv. apply Hquiet. by rewrite Hv.
      * split; [done|]. intros Hv. apply Hquiet. by rewrite Hv.
Qed.

(** An exception that leaves the per-item phase was raised by the method on
    an item of the batch. *)
Lemma execute_raise_source self choices kw (array : list pyval) e :
  n_jobs self ≠ Some 0%Z →
  outcome (execute method self choices array kw) = Raise e →
  ∃ item, item ∈ array ∧ method self item kw = Raise e.
Proof.
  intros Hn. unfold execute. destruct (n_jobs_eq_1 self).
  - destruct (returns_all_or_first_failure method self kw array)
      as [[vs Hvs]|(pre & item & post & vs & e' & -> & Hpre & He)].
    + by rewrite (sequential_returns method _ _ _ _ _ _ Hvs).
    + rewrite (sequential_raises method _ _ _ _ _ _ _ _ _ Hpre He).
      intros [= <-]. exists item. split; [|done].
      apply elem_of_app. right. left.
  - unfold Parallel. simpl. rewrite decide_False by done.
    destruct (pool_run_trace
                (verbose_eq_0 (verbose self) || negb (pool_reports (n_jobs self)))
                (length (tasks_of self kw array)) choices
                (zip (seq 0 (length (tasks_of self kw array)))
                   (tasks_of self kw array)) ∅)
      as (_ & _ & Hexn).
    { rewrite length_zip, length_seq. lia. }
    destruct (pool_run method _ _ _ _ _) as [tr [slots|e']]; simpl in *; [done|].
    intros [= <-]. destruct (Hexn e' eq_refl) as (i & t & Hin & Hr).
    apply elem_of_numbered_tasks in Hin as (item & Hitem & ->).
    exists item. split; [|done]. by eapply list_elem_of_lookup_2.
Qed.

(** *** The progress bar is only an observer *)

Lemma pool_run_disable d d' n :
  ∀ choices (pending pending' : list (nat * task)) (slots : gmap nat pyval),
  Forall2 (same_task method) pending pending' →
  outcome (pool_run method d n choices pending slots)
  = outcome (pool_run method d' n choices pending' slots)
  ∧ calls (trace (pool_run method d n choices pending slots))
    = calls (trace (pool_run method d' n choices pending' slots)).
Proof.
  induction n as [|n IH]; intros choices pending pending' slots Hsame; [done|].
  rewrite !pool_run_step.
  rewrite <- (Forall2_length _ _ _ Hsame).
  destruct (pending !! (hd 0 choices `mod` length pending)) as [[i t]|] eqn:Hit.
  - destruct (Forall2_lookup_l _ _ _ _ _ Hsame Hit)
      as ([i' t'] & Hit' & Hi & Hitem & Hm).
    rewrite Hit'. simpl in Hi, Hitem, Hm. subst i'.
    unfold run_task, call. rewrite <- Hm, <- Hitem.
    destruct (method (task_self t) (task_item t) (task_kwargs t)) as [v|e];
      [|done].
    cbn [mbind M_bind emit lift].
    specialize (IH (tl choices)
                  (delete (hd 0 choices `mod` length pending) pending)
                  (delete (hd 0 choices `mod` length pending) pending')
                  (<[i := v]> slots) (Forall2_delete _ _ _ _ Hsame)).
    destruct (pool_run method d n _ _ _) as [tr r].
    destruct (pool_run method d' n _ _ _) as [tr' r'].
    simpl in IH. destruct IH as [-> Hcalls].
    destruct d, d'; simpl; by rewrite Hcalls.
  - apply lookup_ge_None in Hit.
    rewrite (Forall2_length _ _ _ Hsame) in Hit.
    apply lookup_ge_None in Hit. rewrite <- (Forall2_length _ _ _ Hsame) in Hit.
    by rewrite Hit.
Qed.

Lemma sequential_disable d d' self self' kw (array : list pyval) :
  (∀ item, method self item kw = method self' item kw) →
  ∀ acc,
  outcome (sequential method d self array kw acc)
  = outcome (sequential method d' self' array kw acc)
  ∧ calls (trace (sequential method d self array kw acc))
    = calls (trace (sequential method d' self' array kw acc)).
Proof.
  intros Hm. induction array as [|item array IH]; intros acc; [done|].
  rewrite !sequential_cons. unfold call. rewrite <- Hm.
  destruct (method self item kw) as [v|e]; [|done].
  cbn [mbind M_bind emit lift].
  specialize (IH (acc ++ [v])).
  destruct (sequential method d self array kw (acc ++ [v])) as [tr r].
  destruct (sequential method d' self' array kw (acc ++ [v])) as [tr' r'].
  simpl in IH. destruct IH as [-> Hcalls].
  destruct d, d'; simpl; by rewrite Hcalls.
Qed.

Lemma outcome_wrapper output_format self choices kw (array : list pyval) :
  outcome (wrapper method output_format self choices array kw)
  = match outcome (execute method self choices array kw) with
    | Ok vs => outcome (assemble output_format array vs)
    | Raise e => Raise e
    end.
Proof.
  destruct (execute method self choices array kw) as [tr [vs|e]] eqn:Hrun.
  - by rewrite (wrapper_returns method _ _ _ _ _ _ _ Hrun).
  - by rewrite (wrapper_raises method _ _ _ _ _ _ _ Hrun).
Qed.

Lemma same_task_numbered self self' kw (array : list pyval) :
  (∀ item, method self item kw = method self' item kw) →
  ∀ k,
  Forall2 (same_task method)
    (zip (seq k (length array)) (tasks_of self kw array))
    (zip (seq k (length array)) (tasks_of self' kw array)).
Proof.
  intros Hm. induction array as [|item array IH]; intros k; [constructor|].
  unfold tasks_of in *. rewrite !fmap_cons. simpl.
  constructor; [|apply IH]. unfold same_task. simpl. auto.
Qed.

Lemma execute_verbose nj v v' choices kw (array : list pyval) :
  (∀ c c' item, method c item kw = method c' item kw) →
  outcome (execute method (MkClient nj v) choices array kw)
  = outcome (execute method (MkClient nj v') choices array kw)
  ∧ calls (trace (execute method (MkClient nj v) choices array kw))
    = calls (trace (execute method (MkClient nj v') choices array kw)).
Proof.
  intros Hm. unfold execute, n_jobs_eq_1. simpl.
  destruct (bool_decide (nj = Some 1%Z)).
  - by apply sequential_disable.
  - unfold Parallel. simpl. destruct (decide (nj = Some 0%Z)); [done|].
    assert (Hlen : ∀ c, length (tasks_of c kw array) = length array).
    { intros c. unfold tasks_of. by rewrite length_fmap. }
    rewrite !Hlen.
    destruct (pool_run_disable (verbose_eq_0 v || negb (pool_reports nj))
                (verbose_eq_0 v' || negb (pool_reports nj)) (length array)
                choices
                (zip (seq 0 (length array)) (tasks_of (MkClient nj v) kw array))
                (zip (seq 0 (length array)) (tasks_of (MkClient nj v') kw array))
                ∅) as [Hout Hcalls].
    { by apply same_task_numbered. }
    destruct (pool_run method (verbose_eq_0 v || _) _ _ _ _) as [tr r].
    destruct (pool_run method (verbose_eq_0 v' || _) _ _ _ _) as [tr' r'].
    simpl in Hout, Hcalls. subst r'.
    destruct r as [slots|e]; simpl; by rewrite ?calls_app, Hcalls.
Qed.

End BatchTrace.

(** ** Further properties of the wrapped batch operation *)

Section BatchMore.

Variable method : GrottoClient → pyval → kwargs → result pyval.

(** X1. With the [dict] format, a batch of distinct hashable items on which
    the method returns gives the mapping that pairs every item with its
    result, the entries in the order of the items. *)
Theorem dict_output_unique self choices (array vs : list pyval) kw :
  n_jobs self ≠ Some 0%Z →
  Forall (λ item, hashable item = true) array →
  Forall2 (returns method self kw) array vs →
  NoDup array →
  outcome (wrapper method "dict" self choices array kw)
  = Ok (RDict (zip array vs)).
Proof.
  intros Hn Hhash Hvs Hnd.
  destruct (execute_returns method self choices kw array vs Hn Hvs)
    as (tr & Hrun & _).
  rewrite (wrapper_returns method _ _ _ _ _ _ _ Hrun).
  assert (Hfst : (zip array vs).*1 = array).
  { apply fst_zip. by rewrite (Forall2_length _ _ _ Hvs). }
  unfold assemble. simpl.
  rewrite (dict_comprehension_fresh (zip array vs) []); [done| |].
  - eapply Forall_impl; [apply (Forall_zip_both _ _ _ _ Hvs Hhash)|].
    by intros [k v] [Hk _].
  - simpl. by rewrite Hfst.
Qed.

(** X2. With the [dict] format, an item that cannot be hashed makes the
    wrapper raise [TypeError], and only after the method has been invoked
    on every item of the batch. *)
Theorem dict_unhashable_item self choices (array vs : list pyval) kw :
  n_jobs self ≠ Some 0%Z →
  Forall2 (returns method self kw) array vs →
  Exists (λ item, hashable item = false) array →
  outcome (wrapper method "dict" self choices array kw)
  = Raise (TypeError "unhashable type: 'list'")
  ∧ calls (trace (wrapper method "dict" self choices array kw)) ≡ₚ array.
Proof.
  intros Hn Hvs Hbad.
  destruct (execute_returns method self choices kw array vs Hn Hvs)
    as (tr & Hrun & Hcalls & _).
  rewrite (wrapper_returns method _ _ _ _ _ _ _ Hrun). split; [|done].
  unfold assemble. simpl.
  rewrite (dict_comprehension_unhashable (zip array vs) []); [done|].
  by apply (Exists_zip_fst (returns method self kw)
              (λ item, hashable item = false)).
Qed.

(** X3. When the method returns on every item, it has been invoked exactly
    once per item of the batch, in the pool as in the loop, whatever the
    format and whether or not the assembly then succeeds. *)
Theorem each_item_called_once output_format self choices
    (array vs : list pyval) kw :
  n_jobs self ≠ Some 0%Z →
  Forall2 (returns method self kw) array vs →
  calls (trace (wrapper method output_format self choices array kw)) ≡ₚ array.
Proof.
  intros Hn Hvs.
  destruct (execute_returns method self choices kw array vs Hn Hvs)
    as (tr & Hrun & Hcalls & _).
  by rewrite trace_wrapper, Hrun.
Qed.

(** X4. In sequential mode, when the method returns on every item, the run
    is exactly: call the first item, advance the bar, call the second item,
    advance the bar, and so on in the order of the batch. *)
Theorem sequential_run_in_order output_format self choices
    (array vs : list pyval) kw :
  n_jobs self = Some 1%Z →
  Forall2 (returns method self kw) array vs →
  trace (wrapper method output_format self choices array kw)
  = loop_trace (verbose_eq_0 (verbose self)) array.
Proof.
  intros Hn Hvs. rewrite trace_wrapper.
  unfold execute, n_jobs_eq_1. rewrite bool_decide_eq_true_2 by done.
  by rewrite (sequential_returns method _ _ _ _ _ _ Hvs).
Qed.

(** X5. In every run, successful or not, in either mode: the method is only
    invoked on items of the batch and at most once per position, so never
    more often than the batch has items. *)
Theorem calls_within_batch output_format self choices (array : list pyval) kw :
  calls (trace (wrapper method output_format self choices array kw)) ⊆+ array
  ∧ (length (calls (trace (wrapper method output_format self choices array kw)))
     ≤ length array)%nat.
Proof.
  rewrite trace_wrapper.
  destruct (execute_trace method self choices kw array) as (Hcalls & _).
  split; [done|]. by apply submseteq_length.
Qed.

(** X6. With the [dataframe] format the table has one row per record: its
    length is the total number of records, every row carries an item of the
    batch, and a batch whose results are all empty gives the empty table. *)
Theorem dataframe_row_count self choices (array vs : list pyval)
    (records : list (list pyval)) kw :
  n_jobs self ≠ Some 0%Z →
  Forall2 (returns method self kw) array vs →
  Forall2 (λ v recs, py_iter v = Ok recs) vs records →
  ∃ rows,
    outcome (wrapper method "dataframe" self choices array kw)
    = Ok (RDataFrame rows)
    ∧ length rows = sum_list (length <$> records)
    ∧ (∀ r, r ∈ rows → object r ∈ array)
    ∧ (Forall (λ recs, recs = []) records → rows = []).
Proof.
  intros Hn Hvs Hrecs.
  destruct (execute_returns method self choices kw array vs Hn Hvs)
    as (tr & Hrun & _).
  exists (mjoin (zip_with rows_of array records)).
  rewrite (wrapper_returns method _ _ _ _ _ _ _ Hrun).
  split_and!.
  - unfold assemble. simpl.
    rewrite (explode_iterable (zip array vs) records)
      by (by apply (Forall2_zip_snd (returns method self kw)
                      (λ v recs, py_iter v = Ok recs))).
    by rewrite fst_zip by (by rewrite (Forall2_length _ _ _ Hvs)).
  - pose proof (Forall2_length _ _ _ Hvs) as Hl1.
    pose proof (Forall2_length _ _ _ Hrecs) as Hl2.
    rewrite Hl2 in Hl1. clear Hvs Hrecs Hrun Hl2.
    revert records Hl1.
    induction array as [|item array IH]; intros [|recs records] Hl;
      simpl in *; try done.
    rewrite length_app, IH by lia. unfold rows_of. by rewrite length_fmap.
  - intros r Hr. apply list_elem_of_join in Hr as (rs & Hrs & Hr').
    apply list_elem_of_lookup in Hr' as [i Hi].
    apply lookup_zip_with_Some in Hi as (item & recs & -> & Hitem & _).
    unfold rows_of in Hrs. apply list_elem_of_fmap in Hrs as (x & -> & _).
    simpl. by eapply list_elem_of_lookup_2.
  - intros Hempty. clear Hvs Hrecs Hrun. revert array.
    induction Hempty as [|recs records -> _ IH]; intros [|item array];
      simpl; done.
Qed.

(** X7. In sequential mode, when the k-th call is the first to raise, the bar
    has advanced by k-1 if progress is enabled: the item that failed is not
    counted. *)
Theorem sequential_failure_progress output_format self choices
    (pre : list pyval) item (post vs : list pyval) e kw :
  n_jobs self = Some 1%Z →
  Forall2 (returns method self kw) pre vs →
  method self item kw = Raise e →
  ticks (trace (wrapper method output_format self choices
                  (pre ++ item :: post) kw))
  = if verbose_eq_0 (verbose self) then 0 else length pre.
Proof.
  intros Hn Hpre He. rewrite trace_wrapper.
  unfold execute, n_jobs_eq_1. rewrite bool_decide_eq_true_2 by done.
  rewrite (sequential_raises method _ _ _ _ _ _ _ _ _ Hpre He). simpl.
  rewrite ticks_app, ticks_loop_trace. simpl.
  destruct (verbose_eq_0 _); lia.
Qed.

(** X8. A client built without the [verbose] keyword reports no progress:
    whatever the worker count, the batch and the outcome, the bar never
    advances. *)
Theorem default_client_is_silent output_format nj choices
    (array : list pyval) kw :
  ticks (trace (wrapper method output_format
                  (GrottoClient_init (InitKw nj None)) choices array kw)) = 0.
Proof.
  rewrite trace_wrapper.
  by apply (execute_trace method (GrottoClient_init (InitKw nj None))).
Qed.

(** X9. Progress reporting only observes: for a method that is a function of
    the item and the options alone, two clients that differ in [verbose]
    only give the same outcome and invoke the method on the same items in
    the same order. *)
Theorem progress_is_only_observed output_format nj v v' choices
    (array : list pyval) kw :
  (∀ c c' item, method c item kw = method c' item kw) →
  outcome (wrapper method output_format (MkClient nj v) choices array kw)
  = outcome (wrapper method output_format (MkClient nj v') choices array kw)
  ∧ calls (trace (wrapper method output_format (MkClient nj v) choices array kw))
    = calls (trace (wrapper method output_format (MkClient nj v') choices array kw)).
Proof.
  intros Hm.
  destruct (execute_verbose method nj v v' choices kw array Hm) as [Hout Hcalls].
  rewrite !outcome_wrapper, !trace_wrapper, Hout. done.
Qed.

(** X10. With the [list] format the wrapper adds no error of its own: an
    exception that comes out of it was raised by the method on an item of
    the batch. *)
Theorem list_errors_come_from_method self choices (array : list pyval) kw e :
  n_jobs self ≠ Some 0%Z →
  outcome (wrapper method "list" self choices array kw) = Raise e →
  ∃ item, item ∈ array ∧ method self item kw = Raise e.
Proof.
  intros Hn. rewrite outcome_wrapper.
  destruct (outcome (execute method self choices array kw)) as [vs|e'] eqn:Hrun.
  - done.
  - intros [= <-]. by apply (execute_raise_source method self choices kw).
Qed.

End BatchMore.

(** * Promotion of methods *)

Lemma elem_of_dir (obj : pyobj) name : name ∈ dir obj ↔ is_Some (obj !! name).
Proof.
  unfold dir. rewrite merge_sort_Permutation, list_elem_of_fmap. split.
  - intros ([n a] & -> & Hin). apply elem_of_map_to_list in Hin. by exists a.
  - intros [a Ha]. exists (name, a). split; [done|]. by apply elem_of_map_to_list.
Qed.

Lemma NoDup_dir (obj : pyobj) : NoDup (dir obj).
Proof. unfold dir. rewrite merge_sort_Permutation. apply NoDup_fst_map_to_list. Qed.

Lemma callable_is_Some (a : option attr) : callable a = true → is_Some a.
Proof. destruct a; [eauto|done]. Qed.

(** The listing has exactly the callable attributes, without the names that
    start with an underscore when private names are excluded. *)
Lemma elem_of_get_object_methods (obj : pyobj) exclude_private name :
  name ∈ _get_object_methods obj exclude_private
  ↔ callable (obj !! name) = true
    ∧ (exclude_private = true → startswith_underscore name = false).
Proof.
  unfold _get_object_methods. destruct exclude_private.
  - rewrite !list_elem_of_filter, elem_of_dir. split.
    + intros (Hp & Hc & _). auto.
    + intros [Hc Hp]. auto using callable_is_Some.
  - rewrite list_elem_of_filter, elem_of_dir. split.
    + intros [Hc _]. split; [done|]. discriminate.
    + intros [Hc _]. auto using callable_is_Some.
Qed.

Lemma NoDup_get_object_methods (obj : pyobj) exclude_private :
  NoDup (_get_object_methods obj exclude_private).
Proof.
  unfold _get_object_methods.
  destruct exclude_private; repeat apply NoDup_filter; apply NoDup_dir.
Qed.

Lemma elem_of_public_methods (obj : pyobj) name :
  name ∈ _get_object_methods obj true ↔ public_method obj name = true.
Proof.
  rewrite elem_of_get_object_methods. unfold public_method.
  rewrite andb_true_iff, negb_true_iff. intuition.
Qed.

Lemma setattr_Ok (target target1 : pyobj) name value :
  setattr target name value = Ok target1 → target1 = <[name := value]> target.
Proof.
  unfold setattr. destruct (target !! name) as [[| |]|]; by intros [= <-].
Qed.

Lemma setattr_callable (target : pyobj) name value :
  callable (Some value) = true →
  setattr (<[name := value]> target) name value = Ok (<[name := value]> target).
Proof.
  intros Hc. unfold setattr. rewrite lookup_insert_eq.
  destruct value; [|done|done]. by rewrite insert_insert_eq.
Qed.

(** What the loop has done to every name when it comes to its end. *)
Lemma promote_loop_spec (obj : pyobj) names :
  ∀ target target' : pyobj,
  NoDup names →
  (∀ n, n ∈ names → callable (obj !! n) = true) →
  promote_loop obj names target = Ok target' →
  ∀ name,
    target' !! name
    = if bool_decide (name ∈ names) && negb (callable (target !! name))
      then obj !! name else target !! name.
Proof.
  induction names as [|n names IH]; intros target target' Hnd Hcall Hrun name.
  - injection Hrun as <-.
    rewrite bool_decide_eq_false_2; [done|]. apply not_elem_of_nil.
  - apply NoDup_cons in Hnd as [Hn Hnd].
    assert (Hcall' : ∀ n', n' ∈ names → callable (obj !! n') = true).
    { intros n' Hin. apply Hcall. by right. }
    cbn [promote_loop] in Hrun. case_bool_decide as Hin.
    + apply elem_of_get_object_methods in Hin as [Hc _].
      rewrite (IH target target' Hnd Hcall' Hrun name).
      destruct (decide (name = n)) as [->|Hne].
      * rewrite Hc, !andb_false_r. done.
      * rewrite (bool_decide_ext (name ∈ n :: names) (name ∈ names)); [done|].
        rewrite elem_of_cons. intuition.
    + assert (Hnc : callable (target !! n) = false).
      { destruct (callable (target !! n)) eqn:Hc; [|done].
        exfalso. apply Hin. by apply elem_of_get_object_methods. }
      assert (Hcn : callable (obj !! n) = true) by (apply Hcall; left).
      destruct (obj !! n) as [m|] eqn:Hm; [|done].
      destruct (setattr target n m) as [target1|e] eqn:Hset; [|done].
      apply setattr_Ok in Hset as ->.
      assert (Hrun' : promote_loop obj names (<[n := m]> target) = Ok target').
      { destruct (hasattr_annotations m); [|done].
        by rewrite (setattr_callable target n m Hcn) in Hrun. }
      rewrite (IH (<[n := m]> target) target' Hnd Hcall' Hrun' name).
      destruct (decide (name = n)) as [->|Hne].
      * rewrite (bool_decide_eq_false_2 (n ∈ names)) by done.
        rewrite (bool_decide_eq_true_2 (n ∈ n :: names)) by left.
        rewrite Hnc, lookup_insert_eq. simpl. done.
      * rewrite lookup_insert_ne by done.
        rewrite (bool_decide_ext (name ∈ n :: names) (name ∈ names)); [done|].
        rewrite elem_of_cons. intuition.
Qed.

(** Names that are all callable on the target already: nothing is set. *)
Lemma promote_loop_nothing_to_do (obj : pyobj) names (target : pyobj) :
  (∀ n, n ∈ names → callable (target !! n) = true) →
  promote_loop obj names target = Ok target.
Proof.
  induction names as [|n names IH]; intros Hall; [done|].
  cbn [promote_loop]. rewrite bool_decide_eq_true_2.
  - apply IH. intros n' Hin. apply Hall. by right.
  - apply elem_of_get_object_methods. split; [|done]. apply Hall. left.
Qed.

(** A name of the list that is a property without setter on the target stops
    the loop. *)
Lemma promote_loop_property (obj : pyobj) names :
  ∀ target : pyobj,
  (∀ n, n ∈ names → callable (obj !! n) = true) →
  (∃ n v, n ∈ names ∧ target !! n = Some (Property v)) →
  ∃ e, promote_loop obj names target = Raise e
       ∧ exn_class e = "AttributeError".
Proof.
  induction names as [|n names IH]; intros target Hcall (bad & v & Hbad & Hprop).
  - by apply elem_of_nil in Hbad.
  - assert (Hcall' : ∀ n', n' ∈ names → callable (obj !! n') = true).
    { intros n' Hin. apply Hcall. by right. }
    assert (Hcn : callable (obj !! n) = true) by (apply Hcall; left).
    cbn [promote_loop]. case_bool_decide as Hin.
    + apply elem_of_get_object_methods in Hin as [Hc _].
      apply IH; [done|]. exists bad, v. split; [|done].
      apply elem_of_cons in Hbad as [->|Hbad]; [|done].
      rewrite Hprop in Hc. discriminate Hc.
    + destruct (obj !! n) as [m|] eqn:Hm; [|done].
      destruct (setattr target n m) as [target1|e] eqn:Hset.
      * apply setattr_Ok in Hset as Heq. subst target1.
        assert (Hne : bad ≠ n).
        { intros ->. unfold setattr in Hset. by rewrite Hprop in Hset. }
        assert (Hrest : ∃ e, promote_loop obj names (<[n := m]> target) = Raise e
                             ∧ exn_class e = "AttributeError").
        { apply IH; [done|]. exists bad, v. split.
          - apply elem_of_cons in Hbad as [?|?]; [done|done].
          - by rewrite lookup_insert_ne. }
        destruct (hasattr_annotations m); [|done].
        by rewrite (setattr_callable target n m Hcn).
      * exists e. split; [done|]. unfold setattr in Hset.
        destruct (target !! n) as [[| |]|]; try done. by injection Hset as <-.
Qed.

Lemma promote_methods_lookup (obj target target' : pyobj) name :
  _promote_methods obj target = Ok target' →
  target' !! name
  = if public_method obj name && negb (callable (target !! name))
    then obj !! name else target !! name.
Proof.
  intros Hrun.
  rewrite (promote_loop_spec obj (_get_object_methods obj true) target target'
             (NoDup_get_object_methods obj true)); [| |done].
  - destruct (public_method obj name) eqn:Hpub.
    + rewrite bool_decide_eq_true_2; [done|]. by apply elem_of_public_methods.
    + rewrite bool_decide_eq_false_2; [done|].
      rewrite elem_of_public_methods. congruence.
  - intros n Hn. by apply elem_of_get_object_methods in Hn as [Hc _].
Qed.

(** X11. When [_promote_methods] comes to its end, a name is bound on the
    target to what the object binds it to exactly when it is a public method
    of the object and was not callable on the target before; every other
    name is bound as before. In particular the target keeps its own
    methods, private methods are not promoted, and a plain attribute that
    shares its name with a public method of the object is replaced. *)
Theorem promote_methods_result (obj target target' : pyobj) name :
  _promote_methods obj target = Ok target' →
  target' !! name
  = if public_method obj name && negb (callable (target !! name))
    then obj !! name else target !! name.
Proof.
  intros Hrun. unfold _promote_methods in Hrun.
  pose proof (promote_loop_spec obj (_get_object_methods obj true) target target'
                (NoDup_get_object_methods obj true)) as Hspec.
  rewrite Hspec; [| |done].
  - destruct (public_method obj name) eqn:Hpub.
    + rewrite bool_decide_eq_true_2; [done|]. by apply elem_of_public_methods.
    + rewrite bool_decide_eq_false_2; [done|].
      rewrite elem_of_public_methods. congruence.
  - intros n Hn. by apply elem_of_get_object_methods in Hn as [Hc _].
Qed.

(** X12. Promoting the same object a second time changes nothing. *)
Theorem promote_methods_idempotent (obj target target' : pyobj) :
  _promote_methods obj target = Ok target' →
  _promote_methods obj target' = Ok target'.
Proof.
  intros Hrun. apply promote_loop_nothing_to_do. intros n Hn.
  apply elem_of_public_methods in Hn as Hpub.
  rewrite (promote_methods_lookup _ _ _ n Hrun), Hpub. simpl.
  unfold public_method in Hpub. apply andb_true_iff in Hpub as [Hc _].
  by destruct (callable (target !! n)) eqn:Ht.
Qed.

(** X13. After a promotion the methods of the target are those it had and the
    public methods of the object, and no other. *)
Theorem promoted_methods_listing (obj target target' : pyobj) name :
  _promote_methods obj target = Ok target' →
  name ∈ _get_object_methods target' false
  ↔ name ∈ _get_object_methods target false
    ∨ name ∈ _get_object_methods obj true.
Proof.
  intros Hrun.
  rewrite !elem_of_get_object_methods, (promote_methods_lookup _ _ _ name Hrun).
  unfold public_method.
  destruct (callable (obj !! name)) eqn:Hc,
           (startswith_underscore name) eqn:Hp,
           (callable (target !! name)) eqn:Ht; simpl;
    rewrite ?Hc, ?Ht; intuition (auto; discriminate).
Qed.

Lemma promote_each_spec (objs : list pyobj) :
  ∀ target target' : pyobj,
  promote_each objs target = Ok target' →
  ∀ name,
    target' !! name
    = if callable (target !! name) then target !! name
      else match List.find (λ obj, public_method obj name) objs with
           | Some obj => obj !! name
           | None => target !! name
           end.
Proof.
  induction objs as [|obj objs IH]; intros target target' Hrun name.
  - injection Hrun as <-. by destruct (callable _).
  - cbn [promote_each] in Hrun.
    destruct (_promote_methods obj target) as [t1|e] eqn:Hrun1; [|done].
    rewrite (IH t1 target' Hrun name), !(promote_methods_lookup _ _ _ name Hrun1).
    cbn [List.find].
    destruct (callable (target !! name)) eqn:Ht.
    + rewrite andb_false_r, Ht. done.
    + rewrite andb_true_r.
      destruct (public_method obj name) eqn:Hpub.
      * unfold public_method in Hpub. apply andb_true_iff in Hpub as [Hc _].
        by rewrite Hc.
      * by rewrite Ht.
Qed.

(** X14. When the six promotions of [__init__] come to their end, a name that
    was callable on the client (its own [query_table], for one) is still
    bound to the client's own method; any other name is bound to the method
    of the first sub-client, in the order annotation, chunkedgraph, l2cache,
    materialize, schema, state, that has it as a public method; a name none
    of them offers is bound as before. *)
Theorem GrottoClient_promote_result (subs : subclients) (self self' : pyobj)
    name :
  GrottoClient_promote subs self = Ok self' →
  self' !! name
  = if callable (self !! name) then self !! name
    else match List.find (λ obj, public_method obj name)
                 [annotation subs; chunkedgraph subs; l2cache subs;
                  materialize subs; schema subs; state subs] with
         | Some obj => obj !! name
         | None => self !! name
         end.
Proof.
  unfold GrottoClient_promote. intros Hrun.
  apply (promote_each_spec
           [annotation subs; chunkedgraph subs; l2cache subs;
            materialize subs; schema subs; state subs] self self' Hrun).
Qed.

(** X18. When a public method of the object has the name of a property
    without setter of the target, [_promote_methods] raises
    [AttributeError]. *)
Theorem promote_methods_property_clash (obj target : pyobj) name v :
  public_method obj name = true →
  target !! name = Some (Property v) →
  ∃ e, _promote_methods obj target = Raise e
       ∧ exn_class e = "AttributeError".
Proof.
  intros Hpub Hprop. apply promote_loop_property.
  - intros n Hn. by apply elem_of_get_object_methods in Hn as [Hc _].
  - exists name, v. split; [|done]. by apply elem_of_public_methods.
Qed.

(** * [query_table] *)

Lemma position_renames_lookup (out : table) label :
  label ∈ columns out →
  default label (position_renames out !! label) = short_label label.
Proof.
  intros Hin. unfold position_renames, short_label. simpl.
  repeat case_bool_decide; repeat case_decide; subst;
    simplify_map_eq; done.
Qed.

Lemma short_label_not_position label d :
  d ∈ ["x"; "y"; "z"] → short_label label ≠ "pt_position_" +:+ d.
Proof.
  intros Hd. unfold short_label.
  repeat (apply elem_of_cons in Hd as [->|Hd]);
    [| | |by apply elem_of_nil in Hd];
    repeat case_decide; simpl; first [done | discriminate].
Qed.

Section QueryTableFacts.

Context {arg : Type}.
Variable py_True : arg.
Variable unit_resolution : arg.
Variable materialize_query_table : list arg → gmap string arg → result table.

(** X15. [query_table] decides [split_positions] and [desired_resolution]
    itself: whatever the caller passes under either keyword makes no
    difference to the result. *)
Theorem query_table_overrides_options (args : list arg) (kw : gmap string arg)
    (v w : arg) :
  query_table py_True unit_resolution materialize_query_table args
    (<["split_positions" := v]> kw)
  = query_table py_True unit_resolution materialize_query_table args kw
  ∧ query_table py_True unit_resolution materialize_query_table args
      (<["desired_resolution" := w]> kw)
    = query_table py_True unit_resolution materialize_query_table args kw.
Proof.
  unfold query_table. split.
  - by rewrite (insert_insert_eq _ "split_positions").
  - rewrite (insert_insert_ne _ "split_positions" "desired_resolution") by done.
    by rewrite (insert_insert_eq _ "desired_resolution").
Qed.

(** X16. When the materialization client, called with the caller's arguments
    and the two forced options, returns a table, [query_table] returns that
    table with the same index and the same values column by column, the
    labels [pt_position_x], [pt_position_y], [pt_position_z] shortened to
    [x], [y], [z] and every other label kept; no column of the result is
    labelled [pt_position_x], [pt_position_y] or [pt_position_z]. *)
Theorem query_table_shortens_positions (args : list arg)
    (kw : gmap string arg) (out : table) :
  materialize_query_table args
    (<["desired_resolution" := unit_resolution]>
       (<["split_positions" := py_True]> kw)) = Ok out →
  ∃ t,
    query_table py_True unit_resolution materialize_query_table args kw = Ok t
    ∧ tbl_index t = tbl_index out
    ∧ (tbl_columns t).*2 = (tbl_columns out).*2
    ∧ columns t = short_label <$> columns out
    ∧ ∀ d, d ∈ ["x"; "y"; "z"] → ("pt_position_" +:+ d) ∉ columns t.
Proof.
  intros Hout. unfold query_table. rewrite Hout.
  eexists. split; [done|].
  assert (Hcols : columns (rename (position_renames out) out)
                  = short_label <$> columns out).
  { unfold columns, rename. simpl. rewrite <- !list_fmap_compose.
    apply Forall_fmap_ext, Forall_forall. intros [label vals] Hin. simpl.
    apply position_renames_lookup.
    unfold columns. apply list_elem_of_fmap. by exists (label, vals). }
  split_and!.
  - done.
  - unfold rename. simpl. by rewrite <- list_fmap_compose.
  - done.
  - intros d Hd. rewrite Hcols. intros Hin.
    apply list_elem_of_fmap in Hin as (label & Heq & _).
    by apply (short_label_not_position label d).
Qed.

End QueryTableFacts.

(** X17. [_get_object_methods] lists every callable attribute of the object
    once and nothing else; with [exclude_private] no listed name starts with
    an underscore. *)
Theorem get_object_methods_listing (obj : pyobj) exclude_private :
  NoDup (_get_object_methods obj exclude_private)
  ∧ ∀ name,
      name ∈ _get_object_methods obj exclude_private
      ↔ callable (obj !! name) = true
        ∧ (exclude_private = true → startswith_underscore name = false).
Proof.
  split; [apply NoDup_get_object_methods|].
  intros name. apply elem_of_get_object_methods.
Qed.

(** * The further properties on concrete inputs *)

Lemma dict_output_unique_witness :
  outcome (wrapper sample_method "dict" pooled_client [1; 0]
             [VInt 1; VInt 2] [])
  = Ok (RDict [(VInt 1, VList [VInt 2; VInt 3]);
               (VInt 2, VList [VInt 4; VInt 6])]).
Proof.
  apply (dict_output_unique sample_method pooled_client [1; 0]
           [VInt 1; VInt 2] [VList [VInt 2; VInt 3]; VList [VInt 4; VInt 6]] []).
  - vm_compute. congruence.
  - repeat constructor.
  - repeat constructor.
  - apply (bool_decide_unpack _). vm_compute. exact I.
Defined.

Lemma dict_unhashable_item_witness :
  outcome (wrapper sample_method "dict" pooled_client [1; 0]
             [VInt 1; VList []] [])
  = Raise (TypeError "unhashable type: 'list'")
  ∧ calls (trace (wrapper sample_method "dict" pooled_client [1; 0]
                    [VInt 1; VList []] []))
    ≡ₚ [VInt 1; VList []].
Proof.
  apply (dict_unhashable_item sample_method pooled_client [1; 0]
           [VInt 1; VList []] [VList [VInt 2; VInt 3]; VList []] []).
  - vm_compute. congruence.
  - repeat constructor.
  - right. left. reflexivity.
Defined.

Lemma each_item_called_once_witness :
  calls (trace (wrapper sample_method "dataframe" pooled_client [2; 0; 0]
                  [VInt 1; VInt 2; VInt 4] []))
  ≡ₚ [VInt 1; VInt 2; VInt 4].
Proof.
  apply (each_item_called_once sample_method "dataframe" pooled_client
           [2; 0; 0] [VInt 1; VInt 2; VInt 4]
           [VList [VInt 2; VInt 3]; VList [VInt 4; VInt 6];
            VList [VInt 8; VInt 12]] []).
  - vm_compute. congruence.
  - repeat constructor.
Defined.

Lemma sequential_run_in_order_witness :
  trace (wrapper sample_method "list" sequential_client []
           [VInt 1; VInt 2] [])
  = [EvCall (VInt 1); EvTick; EvCall (VInt 2); EvTick].
Proof.
  apply (sequential_run_in_order sample_method "list" sequential_client []
           [VInt 1; VInt 2] [VList [VInt 2; VInt 3]; VList [VInt 4; VInt 6]] []).
  - reflexivity.
  - repeat constructor.
Defined.

Lemma dataframe_row_count_witness :
  ∃ rows,
    outcome (wrapper lookup_method "dataframe" pooled_client [1; 0]
               [VStr "a"; VStr "b"] [])
    = Ok (RDataFrame rows)
    ∧ length rows = 3
    ∧ (∀ r, r ∈ rows → object r ∈ [VStr "a"; VStr "b"])
    ∧ (Forall (λ recs, recs = []) [[VInt 1; VInt 2]; [VInt 3]] → rows = []).
Proof.
  apply (dataframe_row_count lookup_method pooled_client [1; 0]
           [VStr "a"; VStr "b"]
           [VList [VInt 1; VInt 2]; VList [VInt 3]]
           [[VInt 1; VInt 2]; [VInt 3]] []).
  - vm_compute. congruence.
  - repeat constructor.
  - repeat constructor.
Defined.

Lemma sequential_failure_progress_witness :
  ticks (trace (wrapper sample_method "list" sequential_client []
                  ([VInt 1; VInt 2] ++ VInt 3 :: [VInt 4; VInt 5]) []))
  = 2.
Proof.
  apply (sequential_failure_progress sample_method "list" sequential_client []
           [VInt 1; VInt 2] (VInt 3) [VInt 4; VInt 5]
           [VList [VInt 2; VInt 3]; VList [VInt 4; VInt 6]]
           (PyExn "KeyError" "3") []).
  - reflexivity.
  - repeat constructor.
  - reflexivity.
Defined.

Lemma progress_is_only_observed_witness :
  outcome (wrapper sample_method "list" (MkClient (Some 4%Z) (VerbBool true))
             [1; 0] [VInt 1; VInt 3; VInt 4] [])
  = outcome (wrapper sample_method "list" (MkClient (Some 4%Z) (VerbInt 0))
               [1; 0] [VInt 1; VInt 3; VInt 4] [])
  ∧ calls (trace (wrapper sample_method "list"
                    (MkClient (Some 4%Z) (VerbBool true))
                    [1; 0] [VInt 1; VInt 3; VInt 4] []))
    = calls (trace (wrapper sample_method "list"
                      (MkClient (Some 4%Z) (VerbInt 0))
                      [1; 0] [VInt 1; VInt 3; VInt 4] [])).
Proof.
  apply (progress_is_only_observed sample_method "list" (Some 4%Z)
           (VerbBool true) (VerbInt 0) [1; 0] [VInt 1; VInt 3; VInt 4] []).
  intros c c' item. reflexivity.
Defined.

Lemma list_errors_come_from_method_witness :
  ∃ item, item ∈ [VInt 1; VInt 3; VInt 4]
          ∧ sample_method pooled_client item [] = Raise (PyExn "KeyError" "3").
Proof.
  apply (list_errors_come_from_method sample_method pooled_client [0; 1]
           [VInt 1; VInt 3; VInt 4] [] (PyExn "KeyError" "3")).
  - vm_compute. congruence.
  - vm_compute. reflexivity.
Defined.

Lemma promote_methods_result_witness :
  sample_promoted !! "get_tables"
  = if public_method sample_subclient "get_tables"
       && negb (callable (sample_self !! "get_tables"))
    then sample_subclient !! "get_tables" else sample_self !! "get_tables".
Proof.
  apply (promote_methods_result sample_subclient sample_self sample_promoted
           "get_tables").
  vm_compute. reflexivity.
Defined.

Lemma GrottoClient_promote_result_witness :
  sample_client_promoted !! "get_tables"
  = if callable (sample_client !! "get_tables")
    then sample_client !! "get_tables"
    else match List.find (λ obj, public_method obj "get_tables")
                 [annotation sample_subclients; chunkedgraph sample_subclients;
                  l2cache sample_subclients; materialize sample_subclients;
                  schema sample_subclients; state sample_subclients] with
         | Some obj => obj !! "get_tables"
         | None => sample_client !! "get_tables"
         end.
Proof.
  apply (GrottoClient_promote_result sample_subclients sample_client
           sample_client_promoted "get_tables").
  vm_compute. reflexivity.
Defined.

Lemma promote_methods_property_clash_witness :
  ∃ e, _promote_methods sample_subclient sample_locked = Raise e
       ∧ exn_class e = "AttributeError".
Proof.
  apply (promote_methods_property_clash sample_subclient sample_locked
           "get_tables" (VInt 0)).
  - reflexivity.
  - reflexivity.
Defined.

Lemma promote_methods_idempotent_witness :
  _promote_methods sample_subclient sample_promoted = Ok sample_promoted.
Proof.
  apply (promote_methods_idempotent sample_subclient sample_self sample_promoted).
  vm_compute. reflexivity.
Defined.

Lemma promoted_methods_listing_witness :
  "get_tables" ∈ _get_object_methods sample_promoted false
  ↔ "get_tables" ∈ _get_object_methods sample_self false
    ∨ "get_tables" ∈ _get_object_methods sample_subclient true.
Proof.
  apply (promoted_methods_listing sample_subclient sample_self sample_promoted).
  vm_compute. reflexivity.
Defined.

Lemma query_table_shortens_positions_witness :
  ∃ t,
    query_table (VInt 1) (VList [VInt 1; VInt 1; VInt 1]) sample_query [] ∅
    = Ok t
    ∧ tbl_index t = tbl_index sample_table
    ∧ (tbl_columns t).*2 = (tbl_columns sample_table).*2
    ∧ columns t = short_label <$> columns sample_table
    ∧ ∀ d, d ∈ ["x"; "y"; "z"] → ("pt_position_" +:+ d) ∉ columns t.
Proof.
  apply (query_table_shortens_positions (VInt 1)
           (VList [VInt 1; VInt 1; VInt 1]) sample_query [] ∅ sample_table).
  reflexivity.
Defined.
